(** * neobench: the workload generation engine (pkg/neobench/workload.go)

    A shallow embedding of the weighted script selector, of script
    evaluation and of the client workload, with the properties of the
    specification proved about it.

    Go's [int] is taken to be 64 bits wide (the usual amd64/arm64 build);
    its arithmetic wraps around and is written out as such.  Go maps and
    [*rand.Rand] values are references: they live in a store and are
    named by locations, so that sharing and copying can be told apart.
    Where two structs have a field of one name ([Readonly], [Variables],
    [Scripts], [Rand], [Stderr]) the field carries a prefix. *)

From Stdlib Require Import ZArith Lia.
From Stdlib Require QArith_base.
From stdpp Require Import base option list list_numbers gmap strings fin_maps.

Local Open Scope Z_scope.

(** ** Machine integers *)

Definition int_bits : Z := 64.
Definition int_modulus : Z := 2 ^ int_bits.
Definition MaxInt : Z := 2 ^ (int_bits - 1) - 1.
Definition MinInt : Z := - 2 ^ (int_bits - 1).

(** [uint(z)]: the value of [z] as an unsigned machine word. *)
Definition to_uint (z : Z) : Z := z mod int_modulus.

(** [int(z)]: the value of [z] as a signed (two's complement) machine word. *)
Definition to_int (z : Z) : Z := (z - MinInt) mod int_modulus + MinInt.

(** [a + b] on [int]. *)
Definition int_add (a b : Z) : Z := to_int (a + b).

(** [a * b] on [int64] (also the arithmetic of [time.Duration]). *)
Definition int_mul (a b : Z) : Z := to_int (a * b).

(** ** Outcomes of Go calls

    A call returns, panics, or (in the model only) exhausts the fuel of
    a loop. *)

Inductive outcome (A : Type) : Type :=
| Ret (a : A)
| Panic (msg : string)
| OutOfFuel.
Arguments Ret {A} a.
Arguments Panic {A} msg.
Arguments OutOfFuel {A}.

#[global] Instance outcome_eq_dec {A} `{EqDecision A} : EqDecision (outcome A).
Proof. solve_decision. Defined.

(** [len(a)] *)
Definition len {A} (a : list A) : Z := Z.of_nat (length a).

(** [a[i]] on a slice: out of range panics. *)
Definition index {A} (a : list A) (i : Z) : outcome A :=
  if i <? 0 then Panic "index out of range"
  else match a !! Z.to_nat i with
       | Some x => Ret x
       | None => Panic "index out of range"
       end.

(** ** sort.Search and sort.SearchInts (Go standard library)

    [[
    i, j := 0, n
    for i < j {
        h := int(uint(i+j) >> 1)
        if !f(h) { i = h + 1 } else { j = h }
    }
    return i
    ]] *)

Fixpoint search_loop (fuel : nat) (f : Z -> outcome bool) (i j : Z) : outcome Z :=
  match fuel with
  | O => OutOfFuel
  | S fuel' =>
      if i <? j then
        let h := to_int (Z.shiftr (to_uint (int_add i j)) 1) in
        match f h with
        | Ret false => search_loop fuel' f (int_add h 1) j
        | Ret true => search_loop fuel' f i h
        | Panic msg => Panic msg
        | OutOfFuel => OutOfFuel
        end
      else Ret i
  end.

Definition Search (n : Z) (f : Z -> outcome bool) : outcome Z :=
  search_loop (S (Z.to_nat n)) f 0 n.

Definition SearchInts (a : list Z) (x : Z) : outcome Z :=
  Search (len a)
         (fun i => match index a i with
                   | Ret ai => Ret (x <=? ai)
                   | Panic msg => Panic msg
                   | OutOfFuel => OutOfFuel
                   end).

(** ** Values, errors and the data model *)

(** A location in the store of reference objects. *)
Definition loc := positive.

(** The dynamic values an [interface{}] holds here: the scalar kinds of
    the expression language, and the nil interface. A float is kept as
    its IEEE-754 bit pattern. *)
Inductive value : Type :=
| VNil
| VInt64 (n : Z)
| VFloat64 (bits : Z)
| VString (s : string)
| VBool (b : bool).

(** Go [error] values: one made by [fmt.Errorf] from a format and its
    arguments, or one that comes from the expression evaluator. *)
Inductive error : Type :=
| Errorf (format : string) (args : list value)
| EvalError (msg : string).

(** The contents of a [map[string]interface{}]. *)
Abbreviation vars := (gmap string value).

(** A map-typed field or variable: [None] is the nil map. *)
Definition mapref := option loc.

(** A [*rand.Rand]: [None] is the nil pointer. *)
Definition randref := option loc.

(** An [io.Writer], by its descriptor. *)
Definition writer := Z.
Definition os_Stderr : writer := 2.

Record ScriptContext : Type := {
  ctx_Stderr : writer;
  ctx_Vars : mapref;
  ctx_Rand : randref
}.

Record Statement : Type := {
  Query : string;
  Params : mapref
}.

Record UnitOfWork : Type := {
  uow_Readonly : bool;
  Statements : list Statement
}.

(** math/rand, as far as this package uses it: the state of a generator
    and the three operations called on it. Nothing is assumed of them
    here; [Intn_contract] states what the library documents. *)
Record MathRand : Type := {
  Rand : Type;
  Intn : Z -> Rand -> outcome (Z * Rand);
  Int63 : Rand -> outcome (Z * Rand);
  NewSource : Z -> Rand
}.

(** [Intn(n)] returns a number in the half-open interval [[0,n)] and
    panics if [n <= 0]. *)
Definition Intn_contract (G : MathRand) : Prop :=
  forall n st,
    (0 < n -> exists d st', Intn G n st = Ret (d, st') /\ 0 <= d < n) /\
    (n <= 0 -> exists msg, Intn G n st = Panic msg).

(** Two generators to run the model on. [tape] replays a list of raw
    draws, reducing each into the range asked for; [exploding] panics
    whenever it is consulted. *)
Definition tape : MathRand := {|
  Rand := list Z;
  Intn := fun n st =>
    if n <=? 0 then Panic "invalid argument to Intn"
    else match st with
         | x :: xs => Ret (x mod n, xs)
         | [] => Ret (0, [])
         end;
  Int63 := fun st =>
    match st with
    | x :: xs => Ret (x mod 2 ^ 63, xs)
    | [] => Ret (0, [])
    end;
  NewSource := fun seed => [seed]
|}.

Definition exploding : MathRand := {|
  Rand := unit;
  Intn := fun _ _ => Panic "randomness consulted";
  Int63 := fun _ => Panic "randomness consulted";
  NewSource := fun _ => tt
|}.

Section Neobench.
Context {G : MathRand}.

(** ** The store *)

(** Map objects, generator objects, and the durations handed to
    [time.Sleep] so far. *)
Record World : Type := {
  maps : gmap loc vars;
  rands : gmap loc (Rand G);
  slept : list Z
}.

Definition with_maps (w : World) (h : gmap loc vars) : World :=
  {| maps := h; rands := rands w; slept := slept w |}.
Definition with_rands (w : World) (rs : gmap loc (Rand G)) : World :=
  {| maps := maps w; rands := rs; slept := slept w |}.
Definition with_slept (w : World) (ds : list Z) : World :=
  {| maps := maps w; rands := rands w; slept := ds |}.

(** A computation on the store. A panic leaves the store as it was when
    the panic was raised. *)
Definition M (A : Type) : Type := World -> outcome A * World.

#[global] Instance M_ret : MRet M := fun A a w => (Ret a, w).
#[global] Instance M_bind : MBind M := fun A B k m w =>
  match m w with
  | (Ret a, w') => k a w'
  | (Panic msg, w') => (Panic msg, w')
  | (OutOfFuel, w') => (OutOfFuel, w')
  end.

Definition lift {A} (o : outcome A) : M A := fun w => (o, w).

(** Reading through a map reference: a nil map reads as empty. *)
Definition read_map (h : gmap loc vars) (r : mapref) : vars :=
  match r with
  | Some l => default ∅ (h !! l)
  | None => ∅
  end.

(** A reference is valid when it is nil or names an object of the store. *)
Definition valid_ref (h : gmap loc vars) (r : mapref) : Prop :=
  match r with
  | Some l => l ∈ dom h
  | None => True
  end.

(** [make(map[string]interface{})] *)
Definition make_map : M loc := fun w =>
  let l := fresh (dom (maps w)) in
  (Ret l, with_maps w (<[l := ∅]> (maps w))).

(** [m[k] = v]; assigning to an entry of a nil map panics. *)
Definition map_assign (r : mapref) (k : string) (v : value) : M unit := fun w =>
  match r with
  | None => (Panic "assignment to entry in nil map", w)
  | Some l => (Ret tt, with_maps w (<[l := <[k := v]> (read_map (maps w) r)]> (maps w)))
  end.

(** [for k, v := range src { dst[k] = v }] *)
Definition range_copy (src : mapref) (dst : loc) : M unit := fun w =>
  let copied := map_fold (fun k v acc => <[k := v]> acc)
                         (read_map (maps w) (Some dst)) (read_map (maps w) src) in
  (Ret tt, with_maps w (<[dst := copied]> (maps w))).

(** A method call on a [*rand.Rand]; a nil pointer panics. *)
Definition on_rand {A} (r : randref) (f : Rand G -> outcome (A * Rand G)) : M A := fun w =>
  match r with
  | None => (Panic "nil pointer dereference", w)
  | Some l =>
      match rands w !! l with
      | None => (Panic "nil pointer dereference", w)
      | Some st =>
          match f st with
          | Ret (a, st') => (Ret a, with_rands w (<[l := st']> (rands w)))
          | Panic msg => (Panic msg, w)
          | OutOfFuel => (OutOfFuel, w)
          end
      end
  end.

(** [time.Sleep(d)] *)
Definition time_Sleep (d : Z) : M unit := fun w =>
  (Ret tt, with_slept w (slept w ++ [d])).

(** ** Scripts and commands *)

(** Modelled from the spec: the Expression type is declared outside
    workload.go and is consumed only through [Eval(ctx) -> (value, error)];
    the context exposes the current variable scope and the randomness
    stream. An expression is given the context, the contents of the
    context's variable scope and the generators, and yields a value or an
    error together with the generators as it leaves them. *)
Record Expression : Type := {
  expr_Eval : ScriptContext -> vars -> gmap loc (Rand G) ->
              (value + error) * gmap loc (Rand G)
}.

Inductive Command : Type :=
| QueryCommand (query : string)
| SetCommand (VarName : string) (Expression_ : Expression)
| SleepCommand (Duration : Expression) (Unit : Z).

Record Script : Type := {
  Readonly : bool;
  Weight : Z;
  Commands : list Command
}.

Record Scripts : Type := {
  Scripts_ : list Script;
  WeightedLookup : list Z;
  TotalWeight : Z
}.

Record Workload : Type := {
  wl_Variables : mapref;
  wl_Scripts : Scripts;
  wl_Rand : randref
}.

Record ClientWorkload : Type := {
  cw_Readonly : bool;
  cw_Variables : mapref;
  cw_Scripts : Scripts;
  cw_Rand : randref;
  cw_Stderr : writer
}.

(** ** NewScripts *)

(** The loop of [NewScripts], from cumulative weight [cum] on:
    [cumulativeWeight += int(script.Weight); lookupTable[i] = cumulativeWeight]. *)
Fixpoint cumulate (cum : Z) (scripts : list Script) : list Z * Z :=
  match scripts with
  | [] => ([], cum)
  | script :: rest =>
      let cum' := int_add cum (to_int (Weight script)) in
      let '(table, total) := cumulate cum' rest in
      (cum' :: table, total)
  end.

Definition NewScripts (scripts : list Script) : Scripts :=
  let '(lookupTable, cumulativeWeight) := cumulate 0 scripts in
  {| Scripts_ := scripts;
     WeightedLookup := lookupTable;
     TotalWeight := cumulativeWeight |}.

(** ** Scripts.Choose *)

(** Steps 2 and 3 of [Choose]: the binary search for [point] and the
    access to the script found. *)
Definition choose_at (s : Scripts) (point : Z) : outcome Script :=
  match SearchInts (WeightedLookup s) point with
  | Ret i => index (Scripts_ s) i
  | Panic msg => Panic msg
  | OutOfFuel => OutOfFuel
  end.

Definition Choose (s : Scripts) (r : randref) : M Script :=
  if len (Scripts_ s) =? 1 then lift (index (Scripts_ s) 0)
  else
    d ← on_rand r (Intn G (TotalWeight s));
    let point := int_add d 1 in
    lift (choose_at s point).

(** ** Commands *)

(** [Expression.Eval(ctx)] as a computation on the store. *)
Definition eval_expr (e : Expression) (ctx : ScriptContext) : M (value + error) := fun w =>
  let '(r, rs) := expr_Eval e ctx (read_map (maps w) (ctx_Vars ctx)) (rands w) in
  (Ret r, with_rands w rs).

(** [uow.Statements = append(uow.Statements, st)] *)
Definition append_statement (uow : UnitOfWork) (st : Statement) : UnitOfWork :=
  {| uow_Readonly := uow_Readonly uow; Statements := Statements uow ++ [st] |}.

(** Each [Execute] is given the context and the unit of work (both
    passed by pointer in the source) and returns the unit of work as it
    leaves it, with the error it returns ([None] for [nil]). *)
Definition QueryCommand_Execute (query : string) (ctx : ScriptContext) (uow : UnitOfWork)
  : M (UnitOfWork * option error) :=
  params ← make_map;
  _ ← range_copy (ctx_Vars ctx) params;
  mret (append_statement uow {| Query := query; Params := Some params |}, None).

Definition SetCommand_Execute (VarName : string) (e : Expression)
    (ctx : ScriptContext) (uow : UnitOfWork) : M (UnitOfWork * option error) :=
  r ← eval_expr e ctx;
  match r with
  | inr err => mret (uow, Some err)
  | inl v =>
      _ ← map_assign (ctx_Vars ctx) VarName v;
      mret (uow, None)
  end.

Definition sleep_mismatch : string := "\sleep must be given an integer expression, got %v".

Definition SleepCommand_Execute (Duration : Expression) (Unit : Z)
    (ctx : ScriptContext) (uow : UnitOfWork) : M (UnitOfWork * option error) :=
  r ← eval_expr Duration ctx;
  match r with
  | inr err => mret (uow, Some err)
  | inl sleepNumber =>
      match sleepNumber with
      | VInt64 sleepInt =>
          _ ← time_Sleep (int_mul sleepInt Unit);
          mret (uow, None)
      | _ => mret (uow, Some (Errorf sleep_mismatch [sleepNumber]))
      end
  end.

(** Dispatch through the [Command] interface. *)
Definition Execute (cmd : Command) : ScriptContext -> UnitOfWork -> M (UnitOfWork * option error) :=
  match cmd with
  | QueryCommand query => QueryCommand_Execute query
  | SetCommand VarName e => SetCommand_Execute VarName e
  | SleepCommand Duration Unit => SleepCommand_Execute Duration Unit
  end.

(** ** Script.Eval *)

(** The loop over [s.Commands], from the unit of work built so far. *)
Fixpoint eval_loop (cmds : list Command) (ctx : ScriptContext) (uow : UnitOfWork)
  : M (UnitOfWork * option error) :=
  match cmds with
  | [] => mret (uow, None)
  | cmd :: rest =>
      '(uow', err) ← Execute cmd ctx uow;
      match err with
      | Some e => mret (uow', Some e)
      | None => eval_loop rest ctx uow'
      end
  end.

Definition Eval (s : Script) (ctx : ScriptContext) : M (UnitOfWork * option error) :=
  eval_loop (Commands s) ctx {| uow_Readonly := Readonly s; Statements := [] |}.

(** ** Workload.NewClient and ClientWorkload.Next *)

(** [rand.New(rand.NewSource(seed))]: a new generator object. *)
Definition rand_New (seed : Z) : M loc := fun w =>
  let l := fresh (dom (rands w)) in
  (Ret l, with_rands w (<[l := NewSource G seed]> (rands w))).

Definition NewClient (s : Workload) : M ClientWorkload :=
  seed ← on_rand (wl_Rand s) (Int63 G);
  r ← rand_New seed;
  mret {| cw_Readonly := false;
          cw_Variables := wl_Variables s;
          cw_Scripts := wl_Scripts s;
          cw_Rand := Some r;
          cw_Stderr := os_Stderr |}.

Definition Next (s : ClientWorkload) : M (UnitOfWork * option error) :=
  vars ← make_map;
  _ ← range_copy (cw_Variables s) vars;
  script ← Choose (cw_Scripts s) (cw_Rand s);
  Eval script {| ctx_Stderr := cw_Stderr s; ctx_Vars := Some vars; ctx_Rand := cw_Rand s |}.

(** ** The quantities the specification speaks of *)

Definition total_weight (scripts : list Script) : Z :=
  foldr (fun s acc => Weight s + acc) 0 scripts.

Definition cumulative_weight (scripts : list Script) (i : nat) : Z :=
  total_weight (take (S i) scripts).

(** [i] is the smallest index whose table entry reaches [p]. *)
Definition least_index_reaching (a : list Z) (p : Z) (i : nat) : Prop :=
  (exists v, a !! i = Some v /\ p <= v) /\
  (forall j v, (j < i)%nat -> a !! j = Some v -> v < p).

Definition points_selecting (s : Scripts) (i : Z) : Z :=
  len (filter (fun p => SearchInts (WeightedLookup s) p = Ret i) (seqZ 1 (TotalWeight s))).

(** The chance that a point drawn uniformly in [[1, TotalWeight]] selects
    the script at index [i]. *)
Definition selection_probability (s : Scripts) (i : Z) : QArith_base.Q :=
  QArith_base.Qmake (points_selecting s i) (Z.to_pos (TotalWeight s)).

(** [h'] extends [h] and agrees with it on every object of [h] other
    than the one [r] refers to. *)
Definition preserves_except (r : mapref) (h h' : gmap loc vars) : Prop :=
  dom h ⊆ dom h' /\
  forall l, l ∈ dom h -> Some l <> r -> h' !! l = h !! l.

(** The commands of a list, run in order from a unit of work and a
    store, all return nil; the last two arguments are the unit of work
    and the store they leave. *)
Inductive all_succeed (ctx : ScriptContext)
  : list Command -> UnitOfWork -> World -> UnitOfWork -> World -> Prop :=
| all_succeed_nil uow w : all_succeed ctx [] uow w uow w
| all_succeed_cons cmd rest uow w uow1 w1 uow2 w2 :
    Execute cmd ctx uow w = (Ret (uow1, None), w1) ->
    all_succeed ctx rest uow1 w1 uow2 w2 ->
    all_succeed ctx (cmd :: rest) uow w uow2 w2.

(** The query strings of the Query commands of a list, in order. *)
Fixpoint queries_of (cmds : list Command) : list string :=
  match cmds with
  | [] => []
  | QueryCommand query :: rest => query :: queries_of rest
  | _ :: rest => queries_of rest
  end.

(** The store after [n] successive calls of [Next] on a client, whatever
    each call returned. *)
Fixpoint drive (s : ClientWorkload) (n : nat) (w : World) : World :=
  match n with
  | O => w
  | S n' => drive s n' (Next s w).2
  end.

(** A command that is a Query. *)
Definition is_query (cmd : Command) : bool :=
  match cmd with
  | QueryCommand _ => true
  | _ => false
  end.

End Neobench.

(** ** Concrete inputs

    A store, a context, expressions, scripts, a workload and a client on
    the [tape] generator, to run the model on. *)

(** One map object, at location 1, binding [x] to 1; one generator, at
    location 1, that will replay [draws]. *)
Definition demo_world (draws : list Z) : @World tape :=
  {| maps := {[ 1%positive := {[ "x" := VInt64 1 ]} ]};
     rands := {[ 1%positive := draws ]};
     slept := [] |}.

Definition demo_ctx : ScriptContext :=
  {| ctx_Stderr := os_Stderr; ctx_Vars := Some 1%positive; ctx_Rand := Some 1%positive |}.

Definition demo_uow : UnitOfWork := {| uow_Readonly := true; Statements := [] |}.

(** An expression that fails, and a constant. *)
Definition expr_fail : @Expression tape :=
  {| expr_Eval := fun _ _ rs => (inr (EvalError "undefined variable"), rs) |}.

Definition expr_const (v : value) : @Expression tape :=
  {| expr_Eval := fun _ _ rs => (inl v, rs) |}.

Definition demo_A : @Script tape :=
  {| Readonly := false; Weight := 2; Commands := [QueryCommand "RETURN 'a'"] |}.
Definition demo_B : @Script tape :=
  {| Readonly := false; Weight := 3; Commands := [QueryCommand "RETURN 'b'"] |}.
Definition demo_C : @Script tape :=
  {| Readonly := false; Weight := 3; Commands := [QueryCommand "RETURN 'c'"] |}.
Definition demo_scripts : list (@Script tape) := [demo_A; demo_B; demo_C].

(** Weights whose cumulative sum wraps around [int]. *)
Definition wrap_A : @Script tape :=
  {| Readonly := false; Weight := MaxInt; Commands := [QueryCommand "RETURN 'a'"] |}.
Definition wrap_B : @Script tape :=
  {| Readonly := false; Weight := MaxInt; Commands := [QueryCommand "RETURN 'b'"] |}.
Definition wrap_C : @Script tape :=
  {| Readonly := false; Weight := 3; Commands := [QueryCommand "RETURN 'c'"] |}.
Definition wrap_scripts : list (@Script tape) := [wrap_A; wrap_B; wrap_C].

(** A script whose third command fails. *)
Definition demo_failing : @Script tape :=
  {| Readonly := true; Weight := 1;
     Commands := [QueryCommand "MATCH (a) RETURN a";
                  QueryCommand "MATCH (b) RETURN b";
                  SetCommand "y" expr_fail;
                  QueryCommand "MATCH (c) RETURN c"] |}.

(** A script that rebinds [x] and then queries. *)
Definition demo_setter : @Script tape :=
  {| Readonly := false; Weight := 1;
     Commands := [SetCommand "x" (expr_const (VInt64 5));
                  QueryCommand "RETURN $x"] |}.

Definition demo_workload : @Workload tape :=
  {| wl_Variables := Some 1%positive;
     wl_Scripts := NewScripts demo_scripts;
     wl_Rand := Some 1%positive |}.

Definition demo_client : @ClientWorkload tape :=
  {| cw_Readonly := false;
     cw_Variables := Some 1%positive;
     cw_Scripts := NewScripts [demo_setter];
     cw_Rand := Some 1%positive;
     cw_Stderr := os_Stderr |}.

(** A selector holding one script, of weight zero, and a store for the
    generator that panics. *)
Definition lone_script : @Script exploding :=
  {| Readonly := false; Weight := 0; Commands := [QueryCommand "RETURN 1"] |}.
Definition lone_scripts : @Scripts exploding := NewScripts [lone_script].
Definition exploding_world : @World exploding :=
  {| maps := ∅; rands := {[ 1%positive := tt ]}; slept := [] |}.

(** ** Further concrete inputs *)

(** Two scripts of weight zero: a selector with nothing to draw from. *)
Definition idle_A : @Script tape :=
  {| Readonly := false; Weight := 0; Commands := [QueryCommand "RETURN 'a'"] |}.
Definition idle_B : @Script tape :=
  {| Readonly := false; Weight := 0; Commands := [QueryCommand "RETURN 'b'"] |}.
Definition idle_scripts : list (@Script tape) := [idle_A; idle_B].

(** A selector put together by hand, whose table stops short of the point 9. *)
Definition short_table : @Scripts tape :=
  {| Scripts_ := demo_scripts; WeightedLookup := [2; 5; 8]; TotalWeight := 9 |}.

(** A script of Query commands only. *)
Definition demo_reader : @Script tape :=
  {| Readonly := true; Weight := 1;
     Commands := [QueryCommand "MATCH (a) RETURN a"; QueryCommand "MATCH (b) RETURN b"] |}.

(** A context whose variable scope is the nil map. *)
Definition nil_ctx : ScriptContext :=
  {| ctx_Stderr := os_Stderr; ctx_Vars := None; ctx_Rand := Some 1%positive |}.

(** A client whose only script reads, and one with nothing to draw from. *)
Definition reader_client : @ClientWorkload tape :=
  {| cw_Readonly := false;
     cw_Variables := Some 1%positive;
     cw_Scripts := NewScripts [demo_reader];
     cw_Rand := Some 1%positive;
     cw_Stderr := os_Stderr |}.

Definition idle_client : @ClientWorkload tape :=
  {| cw_Readonly := false;
     cw_Variables := Some 1%positive;
     cw_Scripts := NewScripts idle_scripts;
     cw_Rand := Some 1%positive;
     cw_Stderr := os_Stderr |}.

(** * Properties *)

(** ** Machine integers and the binary search *)

Lemma int_consts : int_modulus = 18446744073709551616 /\ MaxInt = 9223372036854775807 /\ MinInt = -9223372036854775808.
Proof. by vm_compute. Qed.

Lemma to_int_small z : MinInt <= z <= MaxInt -> to_int z = z.
Proof.
  destruct int_consts as (Hm & Hx & Hn). intros Hz. unfold to_int.
  rewrite Z.mod_small; lia.
Qed.

Lemma to_uint_int_add i j : 0 <= i -> 0 <= j -> i <= MaxInt -> j <= MaxInt ->
  to_uint (int_add i j) = i + j.
Proof.
  destruct int_consts as (Hm & Hx & Hn). intros. unfold to_uint, int_add, to_int.
  rewrite Z.add_mod_idemp_l by lia.
  replace (i + j - MinInt + MinInt) with (i + j) by lia.
  apply Z.mod_small. lia.
Qed.

Lemma midpoint i j : 0 <= i -> i <= j -> j <= MaxInt ->
  to_int (Z.shiftr (to_uint (int_add i j)) 1) = (i + j) / 2.
Proof.
  intros. rewrite to_uint_int_add by lia.
  rewrite Z.shiftr_div_pow2 by lia. change (2 ^ 1) with 2.
  apply to_int_small. destruct int_consts as (Hm & Hx & Hn).
  split.
  - transitivity 0; [lia|]. apply Z.div_pos; lia.
  - apply Z.div_le_upper_bound; lia.
Qed.

Lemma search_loop_spec (f : Z -> outcome bool) (n : Z) :
  n <= MaxInt ->
  (forall h, 0 <= h < n -> exists b, f h = Ret b) ->
  forall fuel i j,
    0 <= i -> i <= j -> j <= n -> (Z.to_nat (j - i) < fuel)%nat ->
    exists k, search_loop fuel f i j = Ret k /\ i <= k <= j /\
              (k = i \/ f (k - 1) = Ret false) /\
              (k = j \/ f k = Ret true).
Proof.
  intros Hn Hf. induction fuel as [|fuel IH]; intros i j Hi Hij Hj Hfuel; [lia|].
  simpl. destruct (Z.ltb_spec i j) as [Hlt|Hge].
  - rewrite midpoint by lia.
    assert (Hh : i <= (i + j) / 2 < j).
    { split; [apply Z.div_le_lower_bound; lia | apply Z.div_lt_upper_bound; lia]. }
    set (h := (i + j) / 2) in *.
    destruct (Hf h) as [b Hb]; [lia|]. rewrite Hb. destruct b.
    + destruct (IH i h) as (k & Hk & Hr & Hlo & Hhi); [lia..|].
      exists k. split; [done|]. split; [lia|]. split; [done|].
      destruct Hhi as [->|Hhi]; [by right | by right].
    + destruct int_consts as (Hm & Hx & Hnn).
      unfold int_add. rewrite to_int_small by lia.
      destruct (IH (h + 1) j) as (k & Hk & Hr & Hlo & Hhi); [lia..|].
      exists k. split; [done|]. split; [lia|]. split; [|done].
      destruct Hlo as [->|Hlo]; right; [|done].
      by replace (h + 1 - 1) with h by lia.
  - exists i. split; [done|]. split; [lia|]. split; [by left|]. left. lia.
Qed.

Lemma index_Some {A} (a : list A) (i : Z) x :
  0 <= i -> a !! Z.to_nat i = Some x -> index a i = Ret x.
Proof.
  intros Hi Hx. unfold index. destruct (Z.ltb_spec i 0); [lia|]. by rewrite Hx.
Qed.

Lemma index_in_range {A} (a : list A) (i : Z) :
  0 <= i < len a -> exists x, a !! Z.to_nat i = Some x /\ index a i = Ret x.
Proof.
  intros Hi. destruct (lookup_lt_is_Some_2 a (Z.to_nat i)) as [x Hx].
  { unfold len in Hi. lia. }
  exists x. split; [done|]. apply index_Some; [lia|done].
Qed.

(** What the binary search returns, whatever the order of the table. *)
Lemma SearchInts_spec (a : list Z) (x : Z) :
  len a <= MaxInt ->
  exists k, SearchInts a x = Ret k /\ 0 <= k <= len a /\
    (k = 0 \/ exists v, a !! Z.to_nat (k - 1) = Some v /\ v < x) /\
    (k = len a \/ exists v, a !! Z.to_nat k = Some v /\ x <= v).
Proof.
  intros Hlen. unfold SearchInts, Search.
  set (f := fun i : Z => match index a i with
                         | Ret ai => Ret (x <=? ai)
                         | Panic msg => Panic msg
                         | OutOfFuel => OutOfFuel
                         end).
  assert (Hf : forall h, 0 <= h < len a -> exists b, f h = Ret b).
  { intros h Hh. destruct (index_in_range a h Hh) as (v & _ & Hv).
    exists (x <=? v). unfold f. by rewrite Hv. }
  destruct (search_loop_spec f (len a) Hlen Hf (S (Z.to_nat (len a))) 0 (len a))
    as (k & Hk & Hr & Hlo & Hhi); [unfold len; lia..|].
  exists k. split; [done|]. split; [done|]. split.
  - destruct Hlo as [->|Hlo]; [by left|]. destruct (decide (k = 0)) as [->|Hk0]; [by left|].
    right. destruct (index_in_range a (k - 1)) as (v & Hv & Hi); [lia|].
    exists v. split; [done|]. unfold f in Hlo. rewrite Hi in Hlo.
    injection Hlo as Hlo. apply Z.leb_gt in Hlo. lia.
  - destruct Hhi as [->|Hhi]; [by left|]. destruct (decide (k = len a)) as [->|Hkn]; [by left|].
    right. destruct (index_in_range a k) as (v & Hv & Hi); [lia|].
    exists v. split; [done|]. unfold f in Hhi. rewrite Hi in Hhi.
    injection Hhi as Hhi. by apply Z.leb_le in Hhi.
Qed.

(** ** The selector *)

Section Properties.
Context {G : MathRand}.
Implicit Types (scripts : list (@Script G)).

Lemma cumulate_cons cum (s : @Script G) rest :
  cumulate cum (s :: rest) =
  (int_add cum (to_int (Weight s)) :: (cumulate (int_add cum (to_int (Weight s))) rest).1,
   (cumulate (int_add cum (to_int (Weight s))) rest).2).
Proof. simpl. by destruct (cumulate _ rest). Qed.

Lemma cumulate_length cum scripts :
  length (cumulate cum scripts).1 = length scripts.
Proof.
  revert cum. induction scripts as [|s rest IH]; intros cum; [done|].
  rewrite cumulate_cons. simpl. by rewrite IH.
Qed.

(** The last entry of the table is the total, wrapped or not. *)
Lemma cumulate_last cum scripts :
  scripts <> [] ->
  last (cumulate cum scripts).1 = Some (cumulate cum scripts).2.
Proof.
  revert cum. induction scripts as [|s rest IH]; intros cum Hne; [done|].
  rewrite cumulate_cons. cbn [fst snd].
  destruct rest as [|s' rest']; [done|].
  rewrite <- (IH (int_add cum (to_int (Weight s)))) by done.
  rewrite cumulate_cons. done.
Qed.

Lemma NewScripts_fields scripts :
  Scripts_ (NewScripts scripts) = scripts /\
  WeightedLookup (NewScripts scripts) = (cumulate 0 scripts).1 /\
  TotalWeight (NewScripts scripts) = (cumulate 0 scripts).2.
Proof. unfold NewScripts. by destruct (cumulate 0 scripts). Qed.

Lemma to_int_range z : MinInt <= to_int z <= MaxInt.
Proof.
  destruct int_consts as (Hm & Hx & Hn). unfold to_int.
  pose proof (Z.mod_pos_bound (z - MinInt) int_modulus). lia.
Qed.

Lemma cumulate_total_range cum scripts :
  MinInt <= cum <= MaxInt -> MinInt <= (cumulate cum scripts).2 <= MaxInt.
Proof.
  revert cum. induction scripts as [|s rest IH]; intros cum Hc; [done|].
  rewrite cumulate_cons. cbn [snd]. apply IH, to_int_range.
Qed.

Lemma Intn_contract_tape : Intn_contract tape.
Proof.
  intros n st. split.
  - intros Hn. simpl. destruct (Z.leb_spec n 0); [lia|].
    destruct st as [|x xs].
    + exists 0, []. split; [done|lia].
    + exists (x mod n), xs. split; [done|]. apply Z.mod_pos_bound. lia.
  - intros Hn. simpl. destruct (Z.leb_spec n 0); [|lia]. by eexists.
Qed.

(** A run of [Choose] on more than one script: one draw, then the search. *)
Lemma Choose_draw (s : @Scripts G) (r : loc) st (w : World) d st' :
  len (Scripts_ s) <> 1 ->
  rands w !! r = Some st ->
  Intn G (TotalWeight s) st = Ret (d, st') ->
  Choose s (Some r) w =
    (choose_at s (int_add d 1), with_rands w (<[r := st']> (rands w))).
Proof.
  intros Hlen Hr Hd. unfold Choose.
  destruct (Z.eqb_spec (len (Scripts_ s)) 1) as [|_]; [done|].
  unfold mbind, M_bind, on_rand. rewrite Hr, Hd. done.
Qed.

Lemma Choose_returns scripts (r : loc) st (w : World) :
  Intn_contract G ->
  len scripts <= MaxInt ->
  len scripts <> 1 ->
  0 < TotalWeight (NewScripts scripts) ->
  rands w !! r = Some st ->
  exists d st' i script,
    Intn G (TotalWeight (NewScripts scripts)) st = Ret (d, st') /\
    0 <= d < TotalWeight (NewScripts scripts) /\
    int_add d 1 = d + 1 /\
    SearchInts (WeightedLookup (NewScripts scripts)) (int_add d 1) = Ret i /\
    0 <= i < len scripts /\
    scripts !! Z.to_nat i = Some script /\
    Choose (NewScripts scripts) (Some r) w =
      (Ret script, with_rands w (<[r := st']> (rands w))).
Proof.
  intros HG Hmax Hlen HT Hr.
  destruct (NewScripts_fields scripts) as (HS & HL & HTot).
  set (s := NewScripts scripts) in *.
  destruct (HG (TotalWeight s) st) as [Hpos _].
  destruct (Hpos HT) as (d & st' & Hd & Hrange).
  assert (HTmax : TotalWeight s <= MaxInt).
  { rewrite HTot. apply cumulate_total_range. by vm_compute. }
  assert (Hpoint : int_add d 1 = d + 1).
  { apply to_int_small. destruct int_consts as (_ & _ & Hn). lia. }
  assert (Hne : scripts <> []).
  { intros ->. rewrite HTot in HT. simpl in HT. lia. }
  assert (Hlena : len (WeightedLookup s) = len scripts).
  { unfold len. by rewrite HL, cumulate_length. }
  destruct (SearchInts_spec (WeightedLookup s) (int_add d 1)) as (k & Hk & Hkr & Hlo & Hhi);
    [lia|].
  assert (Hkn : k < len scripts).
  { destruct (decide (k = len scripts)) as [->|]; [|lia]. exfalso.
    pose proof (cumulate_last 0 scripts Hne) as Hlast.
    rewrite <- HL, <- HTot, last_lookup in Hlast.
    destruct Hlo as [H0|(v & Hv & Hlt)].
    - destruct scripts; [done|]. unfold len in H0. simpl in H0. lia.
    - replace (Z.to_nat (len scripts - 1)) with (pred (length (WeightedLookup s))) in Hv.
      2:{ unfold len in *. lia. }
      rewrite Hlast in Hv. injection Hv as <-. lia. }
  destruct (index_in_range scripts k) as (script & Hs & Hi); [lia|].
  exists d, st', k, script. repeat split; try done; try lia.
  rewrite (Choose_draw s r st w d st'); [|by rewrite HS|done|done].
  unfold choose_at. by rewrite Hk, HS, Hi.
Qed.

Lemma total_weight_nonneg scripts :
  Forall (fun s => 0 <= Weight s) scripts -> 0 <= total_weight scripts.
Proof. induction 1; simpl; lia. Qed.

(** Without wrap-around the table holds the prefix sums of the weights. *)
Lemma cumulate_exact scripts : forall cum,
  Forall (fun s => 0 <= Weight s) scripts ->
  0 <= cum -> cum + total_weight scripts <= MaxInt ->
  (cumulate cum scripts).2 = cum + total_weight scripts /\
  forall i, (i < length scripts)%nat ->
    (cumulate cum scripts).1 !! i = Some (cum + cumulative_weight scripts i).
Proof.
  induction scripts as [|s rest IH]; intros cum Hw Hc Hsum.
  - simpl. split; [lia|]. intros i Hi. simpl in Hi. lia.
  - inversion Hw as [|? ? Hs Hrest]; subst.
    pose proof (total_weight_nonneg rest Hrest) as Hnn.
    simpl in Hsum. destruct int_consts as (Hm & Hx & Hn).
    assert (Hstep : int_add cum (to_int (Weight s)) = cum + Weight s).
    { unfold int_add. rewrite (to_int_small (Weight s)) by lia. apply to_int_small. lia. }
    rewrite cumulate_cons, Hstep. cbn [fst snd].
    destruct (IH (cum + Weight s) Hrest) as [Htot Htab]; [lia..|].
    split; [simpl; lia|].
    intros [|i] Hi.
    + unfold cumulative_weight. simpl. f_equal. destruct rest; simpl; lia.
    + simpl in Hi. change ((?x :: ?l) !! S i) with (l !! i).
      rewrite Htab by lia. unfold cumulative_weight.
      change (take (S (S i)) (s :: rest)) with (s :: take (S i) rest).
      simpl. f_equal. lia.
Qed.

Lemma total_weight_app scripts1 scripts2 :
  total_weight (scripts1 ++ scripts2) = total_weight scripts1 + total_weight scripts2.
Proof. induction scripts1 as [|s rest IH]; simpl; lia. Qed.

Lemma total_weight_take_le scripts i :
  Forall (fun s => 0 <= Weight s) scripts ->
  total_weight (take i scripts) <= total_weight scripts.
Proof.
  intros Hw. rewrite <- (take_drop i scripts) at 2. rewrite total_weight_app.
  pose proof (total_weight_nonneg (drop i scripts)) as Hd.
  assert (Forall (fun s => 0 <= Weight s) (drop i scripts)) as Hf by by apply Forall_drop.
  specialize (Hd Hf). lia.
Qed.

Lemma total_weight_take_mono scripts i j :
  Forall (fun s => 0 <= Weight s) scripts -> (i <= j)%nat ->
  total_weight (take i scripts) <= total_weight (take j scripts).
Proof.
  intros Hw Hij. replace (take i scripts) with (take i (take j scripts)).
  - apply total_weight_take_le. by apply Forall_take.
  - rewrite take_take. f_equal. lia.
Qed.

Lemma total_weight_take_S scripts i s :
  scripts !! i = Some s ->
  total_weight (take (S i) scripts) = total_weight (take i scripts) + Weight s.
Proof.
  intros Hs. rewrite (take_S_r _ _ _ Hs), total_weight_app. simpl. lia.
Qed.

(** The points that select script [i] are those of the half-open
    interval between the cumulative weights before and at [i]. *)
Lemma SearchInts_selects scripts i s p :
  Forall (fun s => 0 <= Weight s) scripts ->
  total_weight scripts <= MaxInt ->
  len scripts <= MaxInt ->
  scripts !! i = Some s ->
  1 <= p ->
  SearchInts (WeightedLookup (NewScripts scripts)) p = Ret (Z.of_nat i) <->
  total_weight (take i scripts) < p <= total_weight (take i scripts) + Weight s.
Proof.
  intros Hw Hsum Hlen Hs Hp.
  destruct (NewScripts_fields scripts) as (_ & HL & _). rewrite HL.
  destruct (cumulate_exact scripts 0 Hw) as [_ Htab]; [lia..|].
  set (a := (cumulate 0 scripts).1) in *.
  assert (Hla : len a = len scripts) by (unfold len, a; by rewrite cumulate_length).
  assert (Ha : forall j, (j < length scripts)%nat ->
                 a !! j = Some (total_weight (take (S j) scripts))).
  { intros j Hj. rewrite (Htab j Hj). unfold cumulative_weight. by rewrite Z.add_0_l. }
  pose proof (lookup_lt_Some _ _ _ Hs) as Hi.
  rewrite <- (total_weight_take_S scripts i s Hs).
  destruct (SearchInts_spec a p) as (k & Hk & Hkr & Hlo & Hhi); [lia|].
  rewrite Hk. split.
  - intros [= ->]. split.
    + destruct Hlo as [H0|(v & Hv & Hlt)].
      * replace i with 0%nat by lia. simpl. lia.
      * destruct i as [|i']; [simpl; lia|].
        replace (Z.to_nat (Z.of_nat (S i') - 1)) with i' in Hv by lia.
        rewrite Ha in Hv by lia. injection Hv as <-. lia.
    + destruct Hhi as [Hn|(v & Hv & Hle)]; [unfold len in *; lia|].
      rewrite Nat2Z.id, Ha in Hv by lia. injection Hv as <-. lia.
  - intros [Hlt Hle]. f_equal.
    destruct (Z.lt_trichotomy k (Z.of_nat i)) as [Hki|[->|Hki]]; [exfalso|done|exfalso].
    + destruct Hhi as [Hn|(v & Hv & Hpv)]; [unfold len in *; lia|].
      rewrite Ha in Hv by lia. injection Hv as <-.
      pose proof (total_weight_take_mono scripts (S (Z.to_nat k)) i Hw ltac:(lia)). lia.
    + destruct Hlo as [H0|(v & Hv & Hvp)]; [lia|].
      rewrite Ha in Hv by (unfold len in *; lia). injection Hv as <-.
      pose proof (total_weight_take_mono scripts (S i) (S (Z.to_nat (k - 1))) Hw ltac:(lia)).
      lia.
Qed.

Lemma filter_none {A} (P : A -> Prop) `{forall x, Decision (P x)} (l : list A) :
  (forall x, x ∈ l -> ~ P x) -> filter P l = [].
Proof.
  induction l as [|x l IH]; intros Hl; [done|].
  rewrite filter_cons_False by (apply Hl; left).
  apply IH. intros y Hy. apply Hl. by right.
Qed.

Lemma filter_all {A} (P : A -> Prop) `{forall x, Decision (P x)} (l : list A) :
  (forall x, x ∈ l -> P x) -> filter P l = l.
Proof.
  induction l as [|x l IH]; intros Hl; [done|].
  rewrite filter_cons_True by (apply Hl; left).
  f_equal. apply IH. intros y Hy. apply Hl. by right.
Qed.

Lemma filter_iff_in {A} (P Q : A -> Prop)
    `{forall x, Decision (P x)} `{forall x, Decision (Q x)} (l : list A) :
  (forall x, x ∈ l -> P x <-> Q x) -> filter P l = filter Q l.
Proof.
  induction l as [|x l IH]; intros Hl; [done|].
  rewrite !filter_cons. rewrite IH by (intros y Hy; apply Hl; by right).
  destruct (decide (P x)) as [HP|HP], (decide (Q x)) as [HQ|HQ]; try done.
  - exfalso. apply HQ, (Hl x); [left|done].
  - exfalso. apply HP, (Hl x); [left|done].
Qed.

(** Counting the integers of a sub-interval of [[1, T]]. *)
Lemma count_interval (lo hi T : Z) :
  0 <= lo -> lo <= hi -> hi <= T ->
  len (filter (fun p => lo < p <= hi) (seqZ 1 T)) = hi - lo.
Proof.
  intros Hlo Hhi HT.
  replace T with (lo + ((hi - lo) + (T - hi))) by lia.
  rewrite seqZ_app, seqZ_app by lia. rewrite !filter_app.
  unfold len. rewrite !length_app.
  rewrite (filter_none _ (seqZ 1 lo)).
  2:{ intros x Hx%elem_of_seqZ. lia. }
  rewrite (filter_all _ (seqZ (1 + lo) (hi - lo))).
  2:{ intros x Hx%elem_of_seqZ. lia. }
  rewrite (filter_none _ (seqZ _ (T - hi))).
  2:{ intros x Hx%elem_of_seqZ. lia. }
  rewrite length_seqZ. simpl. lia.
Qed.

Lemma points_selecting_weight scripts i s :
  Forall (fun s => 0 <= Weight s) scripts ->
  total_weight scripts <= MaxInt ->
  len scripts <= MaxInt ->
  scripts !! i = Some s ->
  points_selecting (NewScripts scripts) (Z.of_nat i) = Weight s.
Proof.
  intros Hw Hsum Hlen Hs. unfold points_selecting.
  destruct (NewScripts_fields scripts) as (_ & _ & HT).
  destruct (cumulate_exact scripts 0 Hw) as [Htot _]; [lia..|].
  rewrite HT, Htot. simpl.
  rewrite (filter_iff_in _
             (fun p => total_weight (take i scripts) < p
                       <= total_weight (take i scripts) + Weight s)).
  2:{ intros p Hp%elem_of_seqZ. apply SearchInts_selects; try done. lia. }
  rewrite count_interval; [lia| | |].
  - apply total_weight_nonneg. by apply Forall_take.
  - pose proof (Forall_lookup_1 _ _ _ _ Hw Hs). simpl in *. lia.
  - rewrite <- (total_weight_take_S scripts i s Hs). by apply total_weight_take_le.
Qed.

(** C9: for scripts built by [NewScripts], other than a single one, with
    a positive total weight (wrapped or not), [Choose] draws once, the
    binary search ends on an index below the number of scripts, and
    [Choose] returns the script at that index: it does not panic. *)
Theorem Choose_index_in_bounds scripts (r : loc) st (w : World) :
  Intn_contract G ->
  len scripts <= MaxInt ->
  len scripts <> 1 ->
  0 < TotalWeight (NewScripts scripts) ->
  rands w !! r = Some st ->
  exists d st' i script,
    Intn G (TotalWeight (NewScripts scripts)) st = Ret (d, st') /\
    SearchInts (WeightedLookup (NewScripts scripts)) (int_add d 1) = Ret i /\
    0 <= i < len scripts /\
    scripts !! Z.to_nat i = Some script /\
    Choose (NewScripts scripts) (Some r) w =
      (Ret script, with_rands w (<[r := st']> (rands w))).
Proof.
  intros HG Hmax Hlen HT Hr.
  destruct (Choose_returns scripts r st w HG Hmax Hlen HT Hr)
    as (d & st' & i & script & Hd & _ & _ & Hi & Hb & Hs & HC).
  by exists d, st', i, script.
Qed.

(** C1: when the weights are non-negative and their sum fits in [int],
    the total weight is that sum and the table holds the cumulative
    weights; [Choose] draws [d] in [[0, T)] and
    returns the script at the smallest index whose table entry reaches
    the point [d + 1]; and of the [T] points of [[1, T]] exactly
    [Weight] select each script, a share of [Weight / T]. *)
Theorem Choose_weighted scripts (r : loc) st (w : World) :
  Intn_contract G ->
  Forall (fun s => 0 <= Weight s) scripts ->
  total_weight scripts <= MaxInt ->
  len scripts <= MaxInt ->
  len scripts <> 1 ->
  0 < total_weight scripts ->
  rands w !! r = Some st ->
  TotalWeight (NewScripts scripts) = total_weight scripts /\
  (forall i, (i < length scripts)%nat ->
     WeightedLookup (NewScripts scripts) !! i = Some (cumulative_weight scripts i)) /\
  (exists d st' i script,
     Intn G (TotalWeight (NewScripts scripts)) st = Ret (d, st') /\
     1 <= d + 1 <= TotalWeight (NewScripts scripts) /\
     least_index_reaching (WeightedLookup (NewScripts scripts)) (d + 1) i /\
     scripts !! i = Some script /\
     Choose (NewScripts scripts) (Some r) w =
       (Ret script, with_rands w (<[r := st']> (rands w)))) /\
  (forall i script, scripts !! i = Some script ->
     points_selecting (NewScripts scripts) (Z.of_nat i) = Weight script /\
     selection_probability (NewScripts scripts) (Z.of_nat i) =
       QArith_base.Qmake (Weight script) (Z.to_pos (total_weight scripts))).
Proof.
  intros HG Hw Hsum Hmax Hlen HT Hr.
  destruct (NewScripts_fields scripts) as (HS & HL & HTot).
  destruct (cumulate_exact scripts 0 Hw) as [Htot Htab]; [lia..|].
  rewrite Z.add_0_l in Htot.
  assert (HTs : TotalWeight (NewScripts scripts) = total_weight scripts) by congruence.
  split; [done|]. split.
  { intros i Hi. by rewrite HL, Htab, Z.add_0_l. }
  split.
  - destruct (Choose_returns scripts r st w HG Hmax Hlen) as
      (d & st' & k & script & Hd & Hdr & Hpt & Hk & Hkr & Hks & HC); [lia|done|].
    rewrite Hpt in Hk.
    exists d, st', (Z.to_nat k), script.
    replace k with (Z.of_nat (Z.to_nat k)) in Hk by lia.
    apply (SearchInts_selects scripts _ script) in Hk; [|done..|lia].
    split; [done|]. split; [lia|]. split; [|done].
    pose proof (lookup_lt_Some _ _ _ Hks) as Hlt.
    split.
    + exists (cumulative_weight scripts (Z.to_nat k)). rewrite HL, Htab by done.
      split; [by rewrite Z.add_0_l|]. unfold cumulative_weight.
      rewrite (total_weight_take_S _ _ _ Hks). lia.
    + intros j v Hj Hv. rewrite HL, Htab in Hv by lia. injection Hv as <-.
      rewrite Z.add_0_l. unfold cumulative_weight.
      pose proof (total_weight_take_mono scripts (S j) (Z.to_nat k) Hw ltac:(lia)). lia.
  - intros i script Hs.
    pose proof (points_selecting_weight scripts i script Hw Hsum Hmax Hs) as Hc.
    split; [done|]. unfold selection_probability. by rewrite Hc, HTs.
Qed.

(** C3: with exactly one script, [Choose] returns it and leaves the whole
    store, the generators included, as it found it; this holds for every
    generator (also one that panics whenever it is consulted), every
    generator reference (also nil) and every table and total weight. *)
Theorem Choose_single_script (s : @Scripts G) (r : randref) (w : @World G) :
  length (Scripts_ s) = 1%nat ->
  exists script,
    Scripts_ s = [script] /\
    Choose s r w = (Ret script, w) /\
    rands (Choose s r w).2 = rands w.
Proof.
  intros Hone. unfold Choose, len. rewrite Hone. simpl.
  destruct (Scripts_ s) as [|script [|other rest]]; try discriminate.
  exists script. by repeat split.
Qed.

(** ** The store: copying and framing *)

(** The copying loop adds the entries of the source to the destination. *)
Lemma range_loop_union (src dst : vars) :
  map_fold (fun k v acc => <[k := v]> acc) dst src = src ∪ dst.
Proof.
  apply (map_fold_weak_ind (fun r m => r = m ∪ dst)).
  - by rewrite (left_id_L ∅ (∪)).
  - intros k v m r _ ->. by rewrite insert_union_l.
Qed.

(** Allocating a map does not change what any reference reads. *)
Lemma read_map_alloc (h : gmap loc vars) (r : mapref) :
  read_map (<[fresh (dom h) := ∅]> h) r = read_map h r.
Proof.
  destruct r as [l|]; [|done]. simpl.
  destruct (decide (fresh (dom h) = l)) as [<-|Hne].
  - rewrite lookup_insert_eq. simpl.
    pose proof (is_fresh (dom h)) as Hf. apply not_elem_of_dom in Hf. by rewrite Hf.
  - by rewrite lookup_insert_ne.
Qed.

(** The copying loop into a map just made: one new object, holding the
    contents of the source. *)
Lemma copy_into_fresh (src : mapref) (w : @World G) :
  range_copy src (fresh (dom (maps w)))
             (with_maps w (<[fresh (dom (maps w)) := ∅]> (maps w))) =
  (Ret tt, with_maps w (<[fresh (dom (maps w)) := read_map (maps w) src]> (maps w))).
Proof.
  unfold range_copy, with_maps. cbn [maps rands slept]. f_equal. f_equal.
  rewrite range_loop_union, !read_map_alloc. simpl.
  pose proof (is_fresh (dom (maps w))) as Hf. apply not_elem_of_dom in Hf.
  rewrite Hf. simpl. rewrite (right_id_L ∅ (∪)).
  by rewrite insert_insert_eq.
Qed.

Lemma preserves_except_refl r h : preserves_except r h h.
Proof. split; [done|]. done. Qed.

Lemma preserves_except_trans r h1 h2 h3 :
  preserves_except r h1 h2 -> preserves_except r h2 h3 -> preserves_except r h1 h3.
Proof.
  intros [Hd1 H1] [Hd2 H2]. split; [set_solver|].
  intros l Hl Hr. rewrite H2; [by apply H1| set_solver | done].
Qed.

Lemma preserves_except_alloc r h (m : vars) :
  preserves_except r h (<[fresh (dom h) := m]> h).
Proof.
  split; [rewrite dom_insert_L; set_solver|].
  intros l Hl _. apply lookup_insert_ne. intros <-. by apply (is_fresh (dom h)).
Qed.

(** ** Commands *)

Lemma QueryCommand_Execute_eq query ctx uow (w : @World G) :
  QueryCommand_Execute query ctx uow w =
  (Ret (append_statement uow {| Query := query; Params := Some (fresh (dom (maps w))) |}, None),
   with_maps w (<[fresh (dom (maps w)) := read_map (maps w) (ctx_Vars ctx)]> (maps w))).
Proof.
  unfold QueryCommand_Execute, mbind, M_bind, make_map.
  by rewrite copy_into_fresh.
Qed.

Lemma SetCommand_Execute_eq name e ctx uow (w : @World G) r rs :
  expr_Eval e ctx (read_map (maps w) (ctx_Vars ctx)) (rands w) = (r, rs) ->
  SetCommand_Execute name e ctx uow w =
  match r with
  | inr err => (Ret (uow, Some err), with_rands w rs)
  | inl v =>
      match ctx_Vars ctx with
      | None => (Panic "assignment to entry in nil map", with_rands w rs)
      | Some l =>
          (Ret (uow, None),
           with_maps (with_rands w rs)
                     (<[l := <[name := v]> (read_map (maps w) (Some l))]> (maps w)))
      end
  end.
Proof.
  intros He. unfold SetCommand_Execute, mbind, M_bind, eval_expr. rewrite He.
  destruct r as [v|err]; [|done].
  unfold map_assign. by destruct (ctx_Vars ctx).
Qed.

Lemma SleepCommand_Execute_eq d unit ctx uow (w : @World G) r rs :
  expr_Eval d ctx (read_map (maps w) (ctx_Vars ctx)) (rands w) = (r, rs) ->
  SleepCommand_Execute d unit ctx uow w =
  match r with
  | inr err => (Ret (uow, Some err), with_rands w rs)
  | inl (VInt64 n) =>
      (Ret (uow, None), with_slept (with_rands w rs) (slept w ++ [int_mul n unit]))
  | inl v => (Ret (uow, Some (Errorf sleep_mismatch [v])), with_rands w rs)
  end.
Proof.
  intros He. unfold SleepCommand_Execute, mbind, M_bind, eval_expr. rewrite He.
  destruct r as [v|err]; [|done]. by destruct v.
Qed.

(** A command changes no map object but the scope of its context, and
    removes none. *)
Lemma Execute_frame cmd ctx uow (w : @World G) :
  preserves_except (ctx_Vars ctx) (maps w) (maps (Execute cmd ctx uow w).2).
Proof.
  destruct cmd as [query|name e|d unit]; unfold Execute.
  - rewrite QueryCommand_Execute_eq. apply preserves_except_alloc.
  - destruct (expr_Eval e ctx (read_map (maps w) (ctx_Vars ctx)) (rands w)) as [r rs] eqn:He.
    rewrite (SetCommand_Execute_eq _ _ _ _ _ _ _ He).
    destruct r as [v|err]; [|apply preserves_except_refl].
    destruct (ctx_Vars ctx) as [l|]; [|apply preserves_except_refl].
    split; simpl.
    + rewrite dom_insert_L. set_solver.
    + intros l' _ Hne. apply lookup_insert_ne. congruence.
  - destruct (expr_Eval d ctx (read_map (maps w) (ctx_Vars ctx)) (rands w)) as [r rs] eqn:He.
    rewrite (SleepCommand_Execute_eq _ _ _ _ _ _ _ He).
    destruct r as [[]|err]; apply preserves_except_refl.
Qed.

Lemma eval_loop_frame cmds ctx : forall uow (w : @World G),
  preserves_except (ctx_Vars ctx) (maps w) (maps (eval_loop cmds ctx uow w).2).
Proof.
  induction cmds as [|cmd rest IH]; intros uow w; [apply preserves_except_refl|].
  simpl. unfold mbind, M_bind.
  pose proof (Execute_frame cmd ctx uow w) as Hc.
  destruct (Execute cmd ctx uow w) as [[[uow' [e|]]|msg|] w1]; simpl in *; try done.
  eapply preserves_except_trans; [exact Hc|apply IH].
Qed.

(** A command that returns an error has appended no statement. *)
Lemma Execute_failure_appends_nothing cmd ctx uow (w : @World G) uow' e w' :
  Execute cmd ctx uow w = (Ret (uow', Some e), w') -> uow' = uow.
Proof.
  destruct cmd as [query|name ex|d unit]; unfold Execute.
  - rewrite QueryCommand_Execute_eq. congruence.
  - destruct (expr_Eval ex ctx (read_map (maps w) (ctx_Vars ctx)) (rands w)) as [r rs] eqn:He.
    rewrite (SetCommand_Execute_eq _ _ _ _ _ _ _ He).
    destruct r as [v|err]; [destruct (ctx_Vars ctx)|]; congruence.
  - destruct (expr_Eval d ctx (read_map (maps w) (ctx_Vars ctx)) (rands w)) as [r rs] eqn:He.
    rewrite (SleepCommand_Execute_eq _ _ _ _ _ _ _ He).
    destruct r as [[]|err]; congruence.
Qed.

(** C7: a Sleep command whose duration does not evaluate to an int64
    returns an error and the unit of work as it was given, and records no
    sleep: the evaluator's error as it is when the evaluation failed,
    otherwise the type-mismatch error carrying the offending value. *)
Theorem SleepCommand_rejects_non_integer d unit ctx uow (w : @World G) r rs :
  expr_Eval d ctx (read_map (maps w) (ctx_Vars ctx)) (rands w) = (r, rs) ->
  (forall n, r <> inl (VInt64 n)) ->
  SleepCommand_Execute d unit ctx uow w =
  (Ret (uow, Some match r with
                  | inr err => err
                  | inl v => Errorf sleep_mismatch [v]
                  end),
   with_rands w rs).
Proof.
  intros He Hr. rewrite (SleepCommand_Execute_eq _ _ _ _ _ _ _ He).
  destruct r as [v|err]; [|done]. destruct v; try done. by destruct (Hr n).
Qed.

(** C10: a Set command whose expression fails returns that error, leaves
    the unit of work and every map object as they were (so the scope
    gains and loses no binding), and records no sleep. *)
Theorem SetCommand_failure_changes_nothing name e ctx uow (w : @World G) err rs :
  expr_Eval e ctx (read_map (maps w) (ctx_Vars ctx)) (rands w) = (inr err, rs) ->
  SetCommand_Execute name e ctx uow w = (Ret (uow, Some err), with_rands w rs) /\
  maps (SetCommand_Execute name e ctx uow w).2 = maps w /\
  slept (SetCommand_Execute name e ctx uow w).2 = slept w /\
  forall k, read_map (maps (SetCommand_Execute name e ctx uow w).2) (ctx_Vars ctx) !! k
            = read_map (maps w) (ctx_Vars ctx) !! k.
Proof.
  intros He. by rewrite (SetCommand_Execute_eq _ _ _ _ _ _ _ He).
Qed.

(** On success the variable is bound in the scope of the context. *)
Lemma SetCommand_success name e ctx uow (w : @World G) v rs l :
  expr_Eval e ctx (read_map (maps w) (ctx_Vars ctx)) (rands w) = (inl v, rs) ->
  ctx_Vars ctx = Some l ->
  (SetCommand_Execute name e ctx uow w).1 = Ret (uow, None) /\
  read_map (maps (SetCommand_Execute name e ctx uow w).2) (Some l)
  = <[name := v]> (read_map (maps w) (Some l)).
Proof.
  intros He Hl. rewrite (SetCommand_Execute_eq _ _ _ _ _ _ _ He), Hl.
  split; [done|]. simpl. by rewrite lookup_insert_eq.
Qed.

(** A Set command changes the map objects only when its expression
    evaluated to a value. *)
Lemma SetCommand_changes_only_on_success name e ctx uow (w : @World G) :
  maps (SetCommand_Execute name e ctx uow w).2 <> maps w ->
  exists v rs, expr_Eval e ctx (read_map (maps w) (ctx_Vars ctx)) (rands w) = (inl v, rs).
Proof.
  destruct (expr_Eval e ctx (read_map (maps w) (ctx_Vars ctx)) (rands w)) as [r rs] eqn:He.
  rewrite (SetCommand_Execute_eq _ _ _ _ _ _ _ He).
  destruct r as [v|err]; [by eauto|]. done.
Qed.

(** C8: a Query command returns nil and appends exactly one statement;
    its parameters are a new map object holding the contents of the
    scope; no object that existed is changed, the scope included; and
    whatever commands run afterwards in the same context, the parameters
    still hold the contents the scope had when the Query ran. *)
Theorem QueryCommand_snapshots_scope query ctx uow (w : @World G) :
  valid_ref (maps w) (ctx_Vars ctx) ->
  exists params w1,
    let st := {| Query := query; Params := Some params |} in
    let uow1 := {| uow_Readonly := uow_Readonly uow; Statements := Statements uow ++ [st] |} in
    QueryCommand_Execute query ctx uow w = (Ret (uow1, None), w1) /\
    (params ∉ dom (maps w)) /\
    read_map (maps w1) (Some params) = read_map (maps w) (ctx_Vars ctx) /\
    (forall l, l ∈ dom (maps w) -> maps w1 !! l = maps w !! l) /\
    read_map (maps w1) (ctx_Vars ctx) = read_map (maps w) (ctx_Vars ctx) /\
    rands w1 = rands w /\ slept w1 = slept w /\
    forall rest uow',
      read_map (maps (eval_loop rest ctx uow' w1).2) (Some params)
      = read_map (maps w) (ctx_Vars ctx).
Proof.
  intros Hvalid. pose proof (is_fresh (dom (maps w))) as Hfresh.
  set (params := fresh (dom (maps w))) in *.
  exists params, (with_maps w (<[params := read_map (maps w) (ctx_Vars ctx)]> (maps w))).
  cbn zeta. split; [apply QueryCommand_Execute_eq|]. split; [done|].
  assert (Hread : read_map (<[params := read_map (maps w) (ctx_Vars ctx)]> (maps w)) (Some params)
                  = read_map (maps w) (ctx_Vars ctx)).
  { simpl. by rewrite lookup_insert_eq. }
  assert (Hold : forall l, l ∈ dom (maps w) ->
            <[params := read_map (maps w) (ctx_Vars ctx)]> (maps w) !! l = maps w !! l).
  { intros l Hl. apply lookup_insert_ne. by intros <-. }
  split; [done|]. split; [done|]. split.
  { destruct (ctx_Vars ctx) as [l|]; [|done]. simpl. by rewrite Hold. }
  split; [done|]. split; [done|].
  intros rest uow'.
  destruct (eval_loop_frame rest ctx uow'
              (with_maps w (<[params := read_map (maps w) (ctx_Vars ctx)]> (maps w))))
    as [_ Hframe].
  etransitivity; [|exact Hread]. unfold read_map. f_equal. apply Hframe.
  - simpl. rewrite dom_insert_L. set_solver.
  - intros Heq. rewrite <- Heq in Hvalid. simpl in Hvalid. done.
Qed.

(** ** Script.Eval *)

Lemma all_succeed_eval_loop ctx pre post uow (w : @World G) uow1 w1 :
  all_succeed ctx pre uow w uow1 w1 ->
  eval_loop (pre ++ post) ctx uow w = eval_loop post ctx uow1 w1.
Proof.
  induction 1 as [|cmd rest uow w uow1 w1 uow2 w2 Hcmd _ IH]; [done|].
  simpl. unfold mbind, M_bind. rewrite Hcmd. exact IH.
Qed.

Lemma queries_of_cons (cmd : @Command G) rest :
  queries_of (cmd :: rest) = queries_of [cmd] ++ queries_of rest.
Proof. by destruct cmd. Qed.

(** A command that returns nil keeps the readonly flag and appends its
    own statement, if it is a Query, and nothing otherwise. *)
Lemma Execute_success_statements cmd ctx uow (w : @World G) uow1 w1 :
  Execute cmd ctx uow w = (Ret (uow1, None), w1) ->
  uow_Readonly uow1 = uow_Readonly uow /\
  map Query (Statements uow1) = map Query (Statements uow) ++ queries_of [cmd].
Proof.
  destruct cmd as [query|name ex|d unit]; unfold Execute.
  - rewrite QueryCommand_Execute_eq. intros [= <- _]. simpl.
    by rewrite map_app.
  - destruct (expr_Eval ex ctx (read_map (maps w) (ctx_Vars ctx)) (rands w)) as [r rs] eqn:He.
    rewrite (SetCommand_Execute_eq _ _ _ _ _ _ _ He).
    destruct r as [v|err]; [destruct (ctx_Vars ctx)|]; intros [= <-]; simpl;
      by rewrite (right_id_L [] (++)).
  - destruct (expr_Eval d ctx (read_map (maps w) (ctx_Vars ctx)) (rands w)) as [r rs] eqn:He.
    rewrite (SleepCommand_Execute_eq _ _ _ _ _ _ _ He).
    destruct r as [[]|err]; intros [= <-]; simpl; by rewrite (right_id_L [] (++)).
Qed.

Lemma all_succeed_statements ctx pre uow (w : @World G) uow1 w1 :
  all_succeed ctx pre uow w uow1 w1 ->
  uow_Readonly uow1 = uow_Readonly uow /\
  map Query (Statements uow1) = map Query (Statements uow) ++ queries_of pre.
Proof.
  induction 1 as [uow w|cmd rest uow w uow1 w1 uow2 w2 Hcmd _ [IHr IHs]].
  - simpl. by rewrite (right_id_L [] (++)).
  - destruct (Execute_success_statements _ _ _ _ _ _ Hcmd) as [Hr Hs].
    split; [congruence|].
    rewrite (queries_of_cons cmd rest), IHs, Hs. by rewrite <- app_assoc.
Qed.

(** C4: when the commands before some point of the script all return
    nil, leaving [uow1], then [Eval] returns [uow1] without error if the
    script ends there, and returns [uow1] with the error of the next
    command if that command fails, whatever follows it. [uow1] carries the
    script's readonly flag and one statement for each Query command run,
    in order. *)
Theorem Eval_halts_at_first_failure (s : @Script G) ctx (w : @World G) pre post uow1 w1 :
  Commands s = pre ++ post ->
  all_succeed ctx pre {| uow_Readonly := Readonly s; Statements := [] |} w uow1 w1 ->
  uow_Readonly uow1 = Readonly s /\
  map Query (Statements uow1) = queries_of pre /\
  (post = [] -> Eval s ctx w = (Ret (uow1, None), w1)) /\
  (forall cmd post' uow2 e w2,
      post = cmd :: post' ->
      Execute cmd ctx uow1 w1 = (Ret (uow2, Some e), w2) ->
      Eval s ctx w = (Ret (uow1, Some e), w2)).
Proof.
  intros Hcmds Hpre.
  destruct (all_succeed_statements _ _ _ _ _ _ Hpre) as [Hro Hst]. simpl in Hro, Hst.
  split; [done|]. split; [done|].
  unfold Eval. rewrite Hcmds, (all_succeed_eval_loop _ _ post _ _ _ _ Hpre).
  split.
  - by intros ->.
  - intros cmd post' uow2 e w2 -> Hfail. simpl. unfold mbind, M_bind. rewrite Hfail.
    by rewrite (Execute_failure_appends_nothing _ _ _ _ _ _ _ Hfail).
Qed.

(** ** ClientWorkload.Next and Workload.NewClient *)

Lemma Choose_maps (s : @Scripts G) r (w : @World G) : maps (Choose s r w).2 = maps w.
Proof.
  unfold Choose. destruct (len (Scripts_ s) =? 1); [done|].
  unfold mbind, M_bind, on_rand, lift.
  destruct r as [l|]; [|done]. destruct (rands w !! l) as [st|]; [|done].
  by destruct (Intn G (TotalWeight s) st) as [[d st']| |].
Qed.

(** [Next] evaluates the chosen script in a scope that is a new map
    object holding the contents of the client's variables. *)
Lemma Next_unfold (c : @ClientWorkload G) (w : @World G) :
  Next c w =
  (script ← Choose (cw_Scripts c) (cw_Rand c);
   Eval script {| ctx_Stderr := cw_Stderr c;
                  ctx_Vars := Some (fresh (dom (maps w)));
                  ctx_Rand := cw_Rand c |})
    (with_maps w (<[fresh (dom (maps w)) := read_map (maps w) (cw_Variables c)]> (maps w))).
Proof.
  unfold Next. unfold mbind at 1 2. unfold M_bind at 1 2. unfold make_map.
  by rewrite copy_into_fresh.
Qed.

(** [Next] changes no map object that existed before the call. *)
Lemma Next_frame (c : @ClientWorkload G) (w : @World G) :
  dom (maps w) ⊆ dom (maps (Next c w).2) /\
  forall l, l ∈ dom (maps w) -> maps (Next c w).2 !! l = maps w !! l.
Proof.
  rewrite Next_unfold. pose proof (is_fresh (dom (maps w))) as Hfresh.
  set (scope := fresh (dom (maps w))) in *.
  set (w1 := with_maps w (<[scope := read_map (maps w) (cw_Variables c)]> (maps w))).
  assert (H1 : dom (maps w) ⊆ dom (maps w1) /\
               forall l, l ∈ dom (maps w) -> maps w1 !! l = maps w !! l).
  { split; simpl; [rewrite dom_insert_L; set_solver|].
    intros l Hl. apply lookup_insert_ne. by intros <-. }
  destruct H1 as [Hd1 Hl1].
  unfold mbind, M_bind.
  pose proof (Choose_maps (cw_Scripts c) (cw_Rand c) w1) as Hc.
  destruct (Choose (cw_Scripts c) (cw_Rand c) w1) as [[script|msg|] w2]; simpl in Hc;
    [|cbn [snd]; rewrite Hc; by split..].
  destruct (eval_loop_frame (Commands script)
              {| ctx_Stderr := cw_Stderr c; ctx_Vars := Some scope; ctx_Rand := cw_Rand c |}
              {| uow_Readonly := Readonly script; Statements := [] |} w2) as [Hd2 Hl2].
  rewrite Hc in Hd2, Hl2. unfold Eval. split; [set_solver|].
  intros l Hl. cbn [ctx_Vars] in Hl2. rewrite Hl2; [by apply Hl1|set_solver|].
  intros [= ->]. done.
Qed.

Lemma drive_frame (c : @ClientWorkload G) n : forall w : @World G,
  dom (maps w) ⊆ dom (maps (drive c n w)) /\
  forall l, l ∈ dom (maps w) -> maps (drive c n w) !! l = maps w !! l.
Proof.
  induction n as [|n IHn]; intros w.
  { done. }
  simpl.
  pose proof (Next_frame c w) as [Hd1 Hl1]. pose proof (IHn (Next c w).2) as [Hd2 Hl2].
  clear IHn.
  split; [set_solver|]. intros l Hl. rewrite Hl2; [by apply Hl1|set_solver].
Qed.

Lemma read_map_frame (h h' : gmap loc vars) (r : mapref) :
  valid_ref h r -> (forall l, l ∈ dom h -> h' !! l = h !! l) -> read_map h' r = read_map h r.
Proof.
  intros Hv Hl. destruct r as [l|]; [|done]. simpl in *. by rewrite Hl.
Qed.

(** C5: after any number of calls of [Next] on a client, every map
    object that existed before them (the client's variables among them)
    is as it was, and the next call evaluates its script in a scope that
    is a new map object holding the contents the client's variables had
    before the first call. *)
Theorem Next_never_leaks (c : @ClientWorkload G) (w : @World G) (n : nat) :
  valid_ref (maps w) (cw_Variables c) ->
  (forall l, l ∈ dom (maps w) -> maps (drive c n w) !! l = maps w !! l) /\
  read_map (maps (drive c n w)) (cw_Variables c) = read_map (maps w) (cw_Variables c) /\
  (fresh (dom (maps (drive c n w))) ∉ dom (maps (drive c n w))) /\
  Next c (drive c n w) =
  (script ← Choose (cw_Scripts c) (cw_Rand c);
   Eval script {| ctx_Stderr := cw_Stderr c;
                  ctx_Vars := Some (fresh (dom (maps (drive c n w))));
                  ctx_Rand := cw_Rand c |})
    (with_maps (drive c n w)
       (<[fresh (dom (maps (drive c n w))) := read_map (maps w) (cw_Variables c)]>
          (maps (drive c n w)))).
Proof.
  intros Hvalid. destruct (drive_frame c n w) as [Hd Hl].
  pose proof (read_map_frame _ _ _ Hvalid Hl) as Hread.
  split; [done|]. split; [done|]. split; [apply is_fresh|].
  by rewrite Next_unfold, Hread.
Qed.

(** C6: the client that [NewClient] returns holds the Workload's own
    variables mapping, by reference: no map object is made, so a write
    through the Workload's reference is read through the client's. Its
    generator is a new object. *)
Theorem NewClient_shares_variables (s : @Workload G) (w : @World G) c w' :
  NewClient s w = (Ret c, w') ->
  cw_Variables c = wl_Variables s /\
  cw_Scripts c = wl_Scripts s /\
  maps w' = maps w /\
  read_map (maps w') (cw_Variables c) = read_map (maps w) (wl_Variables s) /\
  (forall k v w'', map_assign (wl_Variables s) k v w' = (Ret tt, w'') ->
     read_map (maps w'') (cw_Variables c) !! k = Some v) /\
  exists r, cw_Rand c = Some r /\ (r ∉ dom (rands w)) /\ wl_Rand s <> Some r.
Proof.
  unfold NewClient, mbind, M_bind, on_rand, rand_New, mret, M_ret.
  destruct (wl_Rand s) as [r0|] eqn:Hr0; [|done].
  destruct (rands w !! r0) as [st|] eqn:Hst; [|done].
  destruct (Int63 G st) as [[seed st']| |]; [|done..].
  intros [= <- <-]. simpl.
  split; [done|]. split; [done|]. split; [done|]. split; [done|]. split.
  - intros k v w''. unfold map_assign. destruct (wl_Variables s) as [l|]; [|done].
    intros [= <-]. simpl. rewrite lookup_insert_eq. simpl. by rewrite lookup_insert_eq.
  - pose proof (is_fresh (dom (<[r0 := st']> (rands w)))) as Hf.
    set (r := fresh (dom (<[r0 := st']> (rands w)))) in *.
    exists r. rewrite dom_insert_L in Hf. split; [done|]. split; [set_solver|].
    intros [= Heq]. rewrite Heq in Hf. set_solver.
Qed.

(** C2: the scripts weighted 2, 3 and 3 give the table 2, 5, 8 and the
    total 8; the points 1 and 2 select the first script, 3 the second and
    8 the third; and [Choose] selects by the point one above its draw. *)
Theorem Choose_boundaries_2_3_3 (ro0 ro1 ro2 : bool) (c0 c1 c2 : list (@Command G)) :
  let A := {| Readonly := ro0; Weight := 2; Commands := c0 |} in
  let B := {| Readonly := ro1; Weight := 3; Commands := c1 |} in
  let C := {| Readonly := ro2; Weight := 3; Commands := c2 |} in
  let s := NewScripts [A; B; C] in
  WeightedLookup s = [2; 5; 8] /\
  TotalWeight s = 8 /\
  SearchInts (WeightedLookup s) 2 = Ret 0 /\ choose_at s 2 = Ret A /\
  SearchInts (WeightedLookup s) 3 = Ret 1 /\ choose_at s 3 = Ret B /\
  SearchInts (WeightedLookup s) 8 = Ret 2 /\ choose_at s 8 = Ret C /\
  SearchInts (WeightedLookup s) 1 = Ret 0 /\ choose_at s 1 = Ret A /\
  forall (r : loc) st st' (w : @World G) point,
    rands w !! r = Some st ->
    Intn G (TotalWeight s) st = Ret (point - 1, st') ->
    0 < point <= 8 ->
    Choose s (Some r) w = (choose_at s point, with_rands w (<[r := st']> (rands w))).
Proof.
  intros A B C s. do 10 (split; [by vm_compute|]).
  intros r st st' w point Hr Hd Hp.
  rewrite (Choose_draw s r st w (point - 1) st'); [|by vm_compute|done|done].
  do 2 f_equal. unfold int_add. destruct int_consts as (Hm & Hx & Hn).
  rewrite to_int_small by lia. lia.
Qed.

End Properties.

(** * The properties on concrete inputs *)

Lemma demo_weights_nonneg : Forall (fun s : @Script tape => 0 <= Weight s) demo_scripts.
Proof. repeat constructor; by vm_compute. Qed.

Lemma Choose_weighted_witness :
  TotalWeight (NewScripts demo_scripts) = total_weight demo_scripts /\
  points_selecting (NewScripts demo_scripts) 1 = 3.
Proof.
  destruct (Choose_weighted demo_scripts 1%positive [4] (demo_world [4]))
    as (HT & _ & _ & Hcount).
  - exact Intn_contract_tape.
  - exact demo_weights_nonneg.
  - by vm_compute.
  - by vm_compute.
  - by vm_compute.
  - by vm_compute.
  - reflexivity.
  - split; [exact HT|]. exact (proj1 (Hcount 1%nat demo_B eq_refl)).
Defined.

Lemma Choose_index_in_bounds_witness :
  exists script, (Choose (NewScripts demo_scripts) (Some 1%positive) (demo_world [4])).1
                 = Ret script.
Proof.
  destruct (Choose_index_in_bounds demo_scripts 1%positive [4] (demo_world [4]))
    as (d & st' & i & script & _ & _ & _ & _ & HC).
  - exact Intn_contract_tape.
  - by vm_compute.
  - by vm_compute.
  - by vm_compute.
  - reflexivity.
  - exists script. exact (f_equal fst HC).
Defined.

Lemma Choose_single_script_witness :
  length (Scripts_ lone_scripts) = 1%nat /\
  Choose lone_scripts (Some 1%positive) exploding_world = (Ret lone_script, exploding_world).
Proof.
  split; [reflexivity|].
  destruct (Choose_single_script lone_scripts (Some 1%positive) exploding_world eq_refl)
    as (script & Hs & HC & _).
  injection Hs as <-. exact HC.
Defined.

Lemma Choose_boundaries_2_3_3_witness :
  Choose (NewScripts demo_scripts) (Some 1%positive) (demo_world [1]) = (Ret demo_A, demo_world []) /\
  Choose (NewScripts demo_scripts) (Some 1%positive) (demo_world [2]) = (Ret demo_B, demo_world []) /\
  Choose (NewScripts demo_scripts) (Some 1%positive) (demo_world [7]) = (Ret demo_C, demo_world []) /\
  Choose (NewScripts demo_scripts) (Some 1%positive) (demo_world [0]) = (Ret demo_A, demo_world []).
Proof.
  destruct (Choose_boundaries_2_3_3 (G := tape) false false false
              [QueryCommand "RETURN 'a'"] [QueryCommand "RETURN 'b'"] [QueryCommand "RETURN 'c'"])
    as (_ & _ & _ & H2 & _ & H3 & _ & H8 & _ & H1 & HC).
  split; [|split; [|split]].
  - refine (eq_trans (HC 1%positive [1] [] (demo_world [1]) 2 eq_refl eq_refl _)
                     (f_equal (fun o => (o, demo_world [])) H2)); lia.
  - refine (eq_trans (HC 1%positive [2] [] (demo_world [2]) 3 eq_refl eq_refl _)
                     (f_equal (fun o => (o, demo_world [])) H3)); lia.
  - refine (eq_trans (HC 1%positive [7] [] (demo_world [7]) 8 eq_refl eq_refl _)
                     (f_equal (fun o => (o, demo_world [])) H8)); lia.
  - refine (eq_trans (HC 1%positive [0] [] (demo_world [0]) 1 eq_refl eq_refl _)
                     (f_equal (fun o => (o, demo_world [])) H1)); lia.
Defined.

Lemma Eval_halts_at_first_failure_witness :
  exists uow1 w2,
    Eval demo_failing demo_ctx (demo_world []) =
      (Ret (uow1, Some (EvalError "undefined variable")), w2) /\
    map Query (Statements uow1) = ["MATCH (a) RETURN a"; "MATCH (b) RETURN b"] /\
    uow_Readonly uow1 = true.
Proof.
  edestruct (Eval_halts_at_first_failure demo_failing demo_ctx (demo_world [])
               [QueryCommand "MATCH (a) RETURN a"; QueryCommand "MATCH (b) RETURN b"]
               [SetCommand "y" expr_fail; QueryCommand "MATCH (c) RETURN c"])
    as (Hro & Hq & _ & Hfail).
  - reflexivity.
  - eapply all_succeed_cons; [reflexivity|].
    eapply all_succeed_cons; [reflexivity|].
    apply all_succeed_nil.
  - eexists _, _. split; [|split; [exact Hq|exact Hro]].
    eapply Hfail; reflexivity.
Defined.

Lemma Next_never_leaks_witness :
  valid_ref (maps (demo_world [])) (cw_Variables demo_client) /\
  read_map (maps (drive demo_client 2 (demo_world []))) (cw_Variables demo_client)
  = read_map (maps (demo_world [])) (cw_Variables demo_client).
Proof.
  assert (Hvalid : valid_ref (maps (demo_world [])) (cw_Variables demo_client)).
  { change (1%positive ∈ dom (maps (demo_world []))). apply elem_of_dom. by eexists. }
  split; [exact Hvalid|].
  exact (proj1 (proj2 (Next_never_leaks demo_client (demo_world []) 2 Hvalid))).
Defined.

Lemma NewClient_shares_variables_witness :
  exists c w',
    NewClient demo_workload (demo_world [42]) = (Ret c, w') /\
    cw_Variables c = wl_Variables demo_workload /\
    maps w' = maps (demo_world [42]).
Proof.
  eexists _, _. split; [reflexivity|].
  edestruct (NewClient_shares_variables demo_workload (demo_world [42])) as (Hv & _ & Hm & _);
    [reflexivity|].
  split; [exact Hv|exact Hm].
Defined.

Lemma SleepCommand_rejects_non_integer_witness :
  SleepCommand_Execute (expr_const (VString "soon")) 1000000 demo_ctx demo_uow (demo_world [])
  = (Ret (demo_uow, Some (Errorf sleep_mismatch [VString "soon"])), demo_world []).
Proof.
  apply (SleepCommand_rejects_non_integer (expr_const (VString "soon")) 1000000
           demo_ctx demo_uow (demo_world []) (inl (VString "soon")) (rands (demo_world []))).
  - reflexivity.
  - intros n. discriminate.
Defined.

Lemma QueryCommand_snapshots_scope_witness :
  valid_ref (maps (demo_world [])) (ctx_Vars demo_ctx) /\
  exists params w1,
    (QueryCommand_Execute "RETURN $x" demo_ctx demo_uow (demo_world [])).2 = w1 /\
    read_map (maps w1) (Some params) = {[ "x" := VInt64 1 ]} /\
    read_map (maps (eval_loop [SetCommand "x" (expr_const (VInt64 5))]
                              demo_ctx demo_uow w1).2) (Some params)
    = {[ "x" := VInt64 1 ]}.
Proof.
  assert (Hvalid : valid_ref (maps (demo_world [])) (ctx_Vars demo_ctx)).
  { change (1%positive ∈ dom (maps (demo_world []))). apply elem_of_dom. by eexists. }
  split; [exact Hvalid|].
  destruct (QueryCommand_snapshots_scope "RETURN $x" demo_ctx demo_uow (demo_world []) Hvalid)
    as (params & w1 & Hex & _ & Hsnap & _ & _ & _ & _ & Hlater).
  exists params, w1. split; [by rewrite Hex|]. split; [exact Hsnap|]. apply Hlater.
Defined.

Lemma SetCommand_failure_changes_nothing_witness :
  SetCommand_Execute "y" expr_fail demo_ctx demo_uow (demo_world [])
  = (Ret (demo_uow, Some (EvalError "undefined variable")), demo_world []).
Proof.
  apply (SetCommand_failure_changes_nothing "y" expr_fail demo_ctx demo_uow (demo_world [])
           (EvalError "undefined variable") (rands (demo_world []))).
  reflexivity.
Defined.

(** On weights whose sum wraps around, the table is not sorted: with the
    total weight 1 the only point is 1, the first script already reaches
    it, yet the search ends on the third; and one point, not three,
    selects the third script. *)
Lemma Choose_weighted_wraps :
  Forall (fun s : @Script tape => 0 <= Weight s) wrap_scripts /\
  len wrap_scripts = 3 /\
  WeightedLookup (NewScripts wrap_scripts) = [MaxInt; -2; 1] /\
  TotalWeight (NewScripts wrap_scripts) = 1 /\
  Intn tape 1 [0] = Ret (0, []) /\
  Choose (NewScripts wrap_scripts) (Some 1%positive) (demo_world [0])
    = (Ret wrap_C, demo_world []) /\
  least_index_reaching (WeightedLookup (NewScripts wrap_scripts)) 1 0 /\
  ~ least_index_reaching (WeightedLookup (NewScripts wrap_scripts)) 1 2 /\
  points_selecting (NewScripts wrap_scripts) 2 = 1 /\
  Weight wrap_C = 3 /\
  points_selecting (NewScripts wrap_scripts) 0 = 0 /\
  Weight wrap_A = MaxInt.
Proof.
  split; [repeat constructor; by vm_compute|].
  do 4 (split; [by vm_compute|]).
  split; [reflexivity|].
  split.
  { split.
    - exists MaxInt. split; [reflexivity|by vm_compute].
    - intros j v Hj. lia. }
  split.
  { intros [_ Hbelow]. specialize (Hbelow 0%nat MaxInt ltac:(lia) eq_refl).
    revert Hbelow. by vm_compute. }
  repeat split; by vm_compute.
Qed.

(** The client's variables are the Workload's own map object, not a
    distinct one. *)
Lemma NewClient_does_not_copy :
  ~ (forall c w',
        NewClient demo_workload (demo_world [42]) = (Ret c, w') ->
        cw_Variables c <> wl_Variables demo_workload).
Proof.
  intros Hdistinct. exact (Hdistinct _ _ eq_refl eq_refl).
Qed.

(** ** Runs of the model *)

(** One call of [Next]: the scope is object 2, where [x] is rebound; the
    statement's parameters are object 3, copied from the scope after the
    rebinding; the client's variables, object 1, still bind [x] to 1. *)
Example Next_demo :
  (Next demo_client (demo_world [])).1 =
    Ret ({| uow_Readonly := false;
            Statements := [{| Query := "RETURN $x"; Params := Some 3%positive |}] |}, None) /\
  maps (Next demo_client (demo_world [])).2 =
    {[ 1%positive := {[ "x" := VInt64 1 ]};
       2%positive := {[ "x" := VInt64 5 ]};
       3%positive := {[ "x" := VInt64 5 ]} ]}.
Proof. split; reflexivity. Qed.

(** The script whose third command fails: two statements and the error. *)
Example Eval_demo_failing :
  Eval demo_failing demo_ctx (demo_world []) =
  (Ret ({| uow_Readonly := true;
           Statements := [{| Query := "MATCH (a) RETURN a"; Params := Some 2%positive |};
                          {| Query := "MATCH (b) RETURN b"; Params := Some 3%positive |}] |},
        Some (EvalError "undefined variable")),
   with_maps (demo_world [])
     {[ 1%positive := {[ "x" := VInt64 1 ]};
        2%positive := {[ "x" := VInt64 1 ]};
        3%positive := {[ "x" := VInt64 1 ]} ]}).
Proof. reflexivity. Qed.

(** A generator that panics when consulted is harmless with one script
    and fatal with two. *)
Example exploding_one_script (s : @Script exploding) (w : @World exploding) :
  Choose {| Scripts_ := [s]; WeightedLookup := [Weight s]; TotalWeight := Weight s |}
         (Some 1%positive) w = (Ret s, w).
Proof. reflexivity. Qed.

Example exploding_two_scripts (a b : @Script exploding) :
  (Choose (NewScripts [a; b]) (Some 1%positive)
          {| maps := ∅; rands := {[ 1%positive := tt ]}; slept := [] |}).1
  = Panic "randomness consulted".
Proof. reflexivity. Qed.

(** A Sleep command on an integer records the duration, in nanoseconds. *)
Example Sleep_demo :
  SleepCommand_Execute (expr_const (VInt64 10)) 1000000 demo_ctx demo_uow (demo_world [])
  = (Ret (demo_uow, None), with_slept (demo_world []) [10000000]).
Proof. reflexivity. Qed.

(** * Further properties *)

Section MoreProperties.
Context {G : MathRand}.
Implicit Types (scripts : list (@Script G)).

(** ** NewScripts and Choose *)

(** X1: whatever the weights, [NewScripts] keeps the scripts as given and
    builds a table with one entry for each; the last entry of the table
    is the total weight (there is none for no scripts, and the total is
    then zero); and the total is an [int]. *)
Theorem NewScripts_table_shape scripts :
  Scripts_ (NewScripts scripts) = scripts /\
  length (WeightedLookup (NewScripts scripts)) = length scripts /\
  last (WeightedLookup (NewScripts scripts)) =
    match scripts with
    | [] => None
    | _ :: _ => Some (TotalWeight (NewScripts scripts))
    end /\
  TotalWeight (NewScripts ([] : list (@Script G))) = 0 /\
  MinInt <= TotalWeight (NewScripts scripts) <= MaxInt.
Proof.
  destruct (NewScripts_fields scripts) as (HS & HL & HT).
  split; [done|]. split; [by rewrite HL, cumulate_length|]. split.
  - destruct scripts as [|s rest]; [done|].
    rewrite HL, HT. by apply cumulate_last.
  - split; [done|]. rewrite HT. apply cumulate_total_range. by vm_compute.
Qed.

(** X2: when the weights are non-negative and their sum fits in [int],
    the table never decreases and runs from the first weight up to
    the total weight, which is the sum. *)
Theorem NewScripts_table_sorted scripts (i j : nat) (vi vj : Z) :
  Forall (fun s => 0 <= Weight s) scripts ->
  total_weight scripts <= MaxInt ->
  (i <= j)%nat ->
  WeightedLookup (NewScripts scripts) !! i = Some vi ->
  WeightedLookup (NewScripts scripts) !! j = Some vj ->
  0 <= vi /\ vi <= vj /\ vj <= TotalWeight (NewScripts scripts) /\
  TotalWeight (NewScripts scripts) = total_weight scripts.
Proof.
  intros Hw Hsum Hij Hi Hj.
  destruct (NewScripts_fields scripts) as (_ & HL & HT).
  destruct (cumulate_exact scripts 0 Hw) as [Htot Htab]; [lia..|].
  rewrite HL in Hi, Hj. rewrite HT, Htot, Z.add_0_l.
  pose proof (lookup_lt_Some _ _ _ Hi) as Hli. pose proof (lookup_lt_Some _ _ _ Hj) as Hlj.
  rewrite cumulate_length in Hli, Hlj.
  rewrite Htab in Hi, Hj by done. injection Hi as <-. injection Hj as <-.
  unfold cumulative_weight. rewrite !Z.add_0_l.
  pose proof (total_weight_nonneg (take (S i) scripts) ltac:(by apply Forall_take)).
  pose proof (total_weight_take_mono scripts (S i) (S j) Hw ltac:(lia)).
  pose proof (total_weight_take_le scripts (S j) Hw).
  repeat split; lia.
Qed.

(** X3: with any number of scripts but one and a total weight of zero or
    less (no scripts at all, or no weight to draw from), [Choose] panics,
    in [Intn], and leaves the store as it was. *)
Theorem Choose_without_weight_panics (s : @Scripts G) (r : loc) st (w : @World G) :
  Intn_contract G ->
  len (Scripts_ s) <> 1 ->
  TotalWeight s <= 0 ->
  rands w !! r = Some st ->
  exists msg, Intn G (TotalWeight s) st = Panic msg /\
              Choose s (Some r) w = (Panic msg, w).
Proof.
  intros HG Hlen HT Hr. destruct (HG (TotalWeight s) st) as [_ Hneg].
  destruct (Hneg HT) as [msg Hmsg]. exists msg. split; [done|].
  unfold Choose. destruct (Z.eqb_spec (len (Scripts_ s)) 1) as [|_]; [done|].
  unfold mbind, M_bind, on_rand. by rewrite Hr, Hmsg.
Qed.

(** X4: when the weights are non-negative and their sum fits in [int],
    the script [Choose] returns has a weight above zero: a script of
    weight zero is never selected. *)
Theorem Choose_skips_weightless scripts (r : loc) st (w : @World G) script w' :
  Intn_contract G ->
  Forall (fun s => 0 <= Weight s) scripts ->
  total_weight scripts <= MaxInt ->
  len scripts <= MaxInt ->
  len scripts <> 1 ->
  0 < total_weight scripts ->
  rands w !! r = Some st ->
  Choose (NewScripts scripts) (Some r) w = (Ret script, w') ->
  0 < Weight script.
Proof.
  intros HG Hw Hsum Hmax Hlen HT Hr HC.
  destruct (NewScripts_fields scripts) as (_ & _ & HTot).
  destruct (cumulate_exact scripts 0 Hw) as [Htot _]; [lia..|].
  destruct (Choose_returns scripts r st w HG Hmax Hlen) as
    (d & st' & k & script0 & Hd & Hdr & Hpt & Hk & Hkr & Hks & HC0); [lia|done|].
  rewrite HC0 in HC. injection HC as <- _.
  rewrite Hpt in Hk. replace k with (Z.of_nat (Z.to_nat k)) in Hk by lia.
  apply (SearchInts_selects scripts _ script0) in Hk; [lia|done..|lia].
Qed.

(** X5: [Choose] changes no map object, records no sleep, and leaves
    every generator other than the one it is given as it was. *)
Theorem Choose_touches_one_generator (s : @Scripts G) (r : randref) (w : @World G) (l : loc) :
  Some l <> r ->
  maps (Choose s r w).2 = maps w /\
  slept (Choose s r w).2 = slept w /\
  rands (Choose s r w).2 !! l = rands w !! l.
Proof.
  intros Hl. unfold Choose. destruct (len (Scripts_ s) =? 1); [done|].
  unfold mbind, M_bind, on_rand, lift.
  destruct r as [l0|]; [|done]. destruct (rands w !! l0) as [st|]; [|done].
  destruct (Intn G (TotalWeight s) st) as [[d st']| |]; [|done..].
  simpl. split; [done|]. split; [done|]. apply lookup_insert_ne. congruence.
Qed.

(** X6: when the table has one entry for each script and every entry is
    below the point, the search ends past the table and the access to the
    script panics with an index out of range. *)
Theorem Choose_point_above_table (s : @Scripts G) (point : Z) :
  len (WeightedLookup s) = len (Scripts_ s) ->
  len (Scripts_ s) <= MaxInt ->
  Forall (fun v => v < point) (WeightedLookup s) ->
  SearchInts (WeightedLookup s) point = Ret (len (Scripts_ s)) /\
  choose_at s point = Panic "index out of range".
Proof.
  intros Hlen Hmax Hall.
  destruct (SearchInts_spec (WeightedLookup s) point) as (k & Hk & Hkr & _ & Hhi); [lia|].
  assert (Hkn : k = len (Scripts_ s)).
  { destruct Hhi as [->|(v & Hv & Hle)]; [done|].
    pose proof (Forall_lookup_1 _ _ _ _ Hall Hv) as Hlt. simpl in Hlt. lia. }
  subst k. split; [done|]. unfold choose_at. rewrite Hk. unfold index.
  destruct (Z.ltb_spec (len (Scripts_ s)) 0) as [|_]; [done|].
  rewrite lookup_ge_None_2; [done|]. unfold len. lia.
Qed.

(** ** Commands and Script.Eval *)

(** The ways a command can return nil: a Query, which adds its statement
    with a new map object for parameters, or another command, which
    leaves the unit of work alone and removes no map object. *)
Lemma Execute_success_cases cmd ctx uow (w : @World G) uow1 w1 :
  Execute cmd ctx uow w = (Ret (uow1, None), w1) ->
  (exists query,
      cmd = QueryCommand query /\
      uow1 = append_statement uow {| Query := query; Params := Some (fresh (dom (maps w))) |} /\
      w1 = with_maps w (<[fresh (dom (maps w)) := read_map (maps w) (ctx_Vars ctx)]> (maps w)))
  \/ (is_query cmd = false /\ uow1 = uow).
Proof.
  destruct cmd as [query|name ex|d unit]; unfold Execute.
  - rewrite QueryCommand_Execute_eq. intros [= <- <-]. left. by exists query.
  - intros H. right. split; [done|]. revert H.
    destruct (expr_Eval ex ctx (read_map (maps w) (ctx_Vars ctx)) (rands w)) as [r rs] eqn:He.
    rewrite (SetCommand_Execute_eq _ _ _ _ _ _ _ He).
    destruct r as [v|err]; [destruct (ctx_Vars ctx)|]; congruence.
  - intros H. right. split; [done|]. revert H.
    destruct (expr_Eval d ctx (read_map (maps w) (ctx_Vars ctx)) (rands w)) as [r rs] eqn:He.
    rewrite (SleepCommand_Execute_eq _ _ _ _ _ _ _ He).
    destruct r as [[]|err]; congruence.
Qed.

(** A command does not run out of fuel, and panics only when it assigns
    into a nil scope. *)
Lemma Execute_outcome cmd ctx uow (w : @World G) :
  match (Execute cmd ctx uow w).1 with
  | Ret _ => True
  | Panic msg => msg = "assignment to entry in nil map" /\ ctx_Vars ctx = None
  | OutOfFuel => False
  end.
Proof.
  destruct cmd as [query|name ex|d unit]; unfold Execute.
  - by rewrite QueryCommand_Execute_eq.
  - destruct (expr_Eval ex ctx (read_map (maps w) (ctx_Vars ctx)) (rands w)) as [r rs] eqn:He.
    rewrite (SetCommand_Execute_eq _ _ _ _ _ _ _ He).
    destruct r as [v|err]; [destruct (ctx_Vars ctx)|]; done.
  - destruct (expr_Eval d ctx (read_map (maps w) (ctx_Vars ctx)) (rands w)) as [r rs] eqn:He.
    rewrite (SleepCommand_Execute_eq _ _ _ _ _ _ _ He).
    by destruct r as [[]|err].
Qed.

Lemma eval_loop_shape cmds ctx : forall uow (w : @World G),
  match (eval_loop cmds ctx uow w).1 with
  | Ret (uow', err) =>
      uow_Readonly uow' = uow_Readonly uow /\
      exists qs, map Query (Statements uow') = map Query (Statements uow) ++ qs /\
                 match err with
                 | None => qs = queries_of cmds
                 | Some _ => qs `prefix_of` queries_of cmds
                 end
  | Panic msg => msg = "assignment to entry in nil map" /\ ctx_Vars ctx = None
  | OutOfFuel => False
  end.
Proof.
  induction cmds as [|cmd rest IH]; intros uow w.
  { simpl. split; [done|]. exists []. by rewrite (right_id_L [] (++)). }
  cbn [eval_loop]. unfold mbind, M_bind. rewrite (queries_of_cons cmd rest).
  pose proof (Execute_outcome cmd ctx uow w) as Hout.
  destruct (Execute cmd ctx uow w) as [[[uow1 [e|]]|msg|] w1] eqn:Hcmd;
    cbn [fst] in Hout; try done.
  - rewrite (Execute_failure_appends_nothing _ _ _ _ _ _ _ Hcmd). cbn [fst mret M_ret].
    split; [done|]. exists []. rewrite (right_id_L [] (++)). split; [done|]. apply prefix_nil.
  - destruct (Execute_success_statements _ _ _ _ _ _ Hcmd) as [Hro Hst].
    specialize (IH uow1 w1).
    destruct (eval_loop rest ctx uow1 w1) as [[[uow2 err]|msg|] w2]; cbn [fst] in *; try done.
    destruct IH as (Hro2 & qs & Hqs & Herr). split; [congruence|].
    exists (queries_of [cmd] ++ qs). split.
    + rewrite Hqs, Hst. by rewrite <- app_assoc.
    + destruct err; [by apply prefix_app|by subst].
Qed.

(** X7: whatever the script, the context and the store, [Eval] comes to
    an end; with expressions that return, it panics only by assigning
    into a nil scope; and the unit of work it returns carries the
    script's readonly flag and the queries of the script's Query
    commands, in order: all of them when the error is nil, a leading part
    of them otherwise. *)
Theorem Eval_statements_follow_commands (s : @Script G) ctx (w : @World G) :
  match (Eval s ctx w).1 with
  | Ret (uow, err) =>
      uow_Readonly uow = Readonly s /\
      match err with
      | None => map Query (Statements uow) = queries_of (Commands s)
      | Some _ => map Query (Statements uow) `prefix_of` queries_of (Commands s)
      end
  | Panic msg => msg = "assignment to entry in nil map" /\ ctx_Vars ctx = None
  | OutOfFuel => False
  end.
Proof.
  unfold Eval.
  pose proof (eval_loop_shape (Commands s) ctx
                {| uow_Readonly := Readonly s; Statements := [] |} w) as H.
  destruct (eval_loop (Commands s) ctx _ w) as [[[uow err]|msg|] w']; simpl in *; try done.
  destruct H as (Hro & qs & Hqs & Herr). split; [done|]. rewrite Hqs. by destruct err.
Qed.

(** X8: [Eval] removes no map object and changes none that existed
    before the call, other than the scope of its context. *)
Theorem Eval_changes_only_the_scope (s : @Script G) ctx (w : @World G) (l : loc) :
  l ∈ dom (maps w) ->
  Some l <> ctx_Vars ctx ->
  l ∈ dom (maps (Eval s ctx w).2) /\
  maps (Eval s ctx w).2 !! l = maps w !! l.
Proof.
  intros Hl Hne.
  destruct (eval_loop_frame (Commands s) ctx
              {| uow_Readonly := Readonly s; Statements := [] |} w) as [Hd Hf].
  unfold Eval. split; [set_solver|]. by apply Hf.
Qed.

Lemma eval_loop_params cmds ctx : forall uow (w : @World G) uow' err w',
  eval_loop cmds ctx uow w = (Ret (uow', err), w') ->
  exists new,
    Statements uow' = Statements uow ++ new /\
    NoDup (map Params new) /\
    Forall (fun st => exists l, Params st = Some l /\ (l ∉ dom (maps w)) /\ l ∈ dom (maps w')) new.
Proof.
  induction cmds as [|cmd rest IH]; intros uow w uow' err w'.
  { simpl. intros [= <- <- <-]. exists []. rewrite (right_id_L [] (++)).
    split; [done|]. split; [constructor|constructor]. }
  simpl. unfold mbind, M_bind.
  destruct (Execute cmd ctx uow w) as [[[uow1 [e|]]|msg|] w1] eqn:Hcmd; try done.
  - intros [= <- <- <-].
    rewrite (Execute_failure_appends_nothing _ _ _ _ _ _ _ Hcmd).
    exists []. rewrite (right_id_L [] (++)). split; [done|]. split; constructor.
  - intros Hrest.
    destruct (IH _ _ _ _ _ Hrest) as (new & Hst & Hnd & Hall).
    pose proof (Execute_frame cmd ctx uow w) as [Hd1 _]. rewrite Hcmd in Hd1. simpl in Hd1.
    pose proof (eval_loop_frame rest ctx uow1 w1) as [Hd2 _]. rewrite Hrest in Hd2.
    simpl in Hd2.
    destruct (Execute_success_cases _ _ _ _ _ _ Hcmd) as [(query & -> & -> & Hw1)|[_ ->]].
    + exists ({| Query := query; Params := Some (fresh (dom (maps w))) |} :: new).
      split; [rewrite Hst; simpl; by rewrite <- app_assoc|].
      assert (Hin : fresh (dom (maps w)) ∈ dom (maps w1)).
      { rewrite Hw1. simpl. rewrite dom_insert_L. set_solver. }
      split.
      * simpl. constructor; [|done]. intros Hmem.
        apply list_elem_of_fmap in Hmem as (st & Hp & Hmem).
        rewrite Forall_forall in Hall. destruct (Hall st Hmem) as (l & Hl & Hnew & _).
        rewrite Hl in Hp. injection Hp as Heq. subst l. done.
      * constructor.
        -- exists (fresh (dom (maps w))). split; [done|].
           split; [apply is_fresh|by apply Hd2].
        -- eapply Forall_impl; [exact Hall|]. intros st (l & Hl & Hnew & Hl').
           exists l. split; [done|]. split; [|done]. intros Hold. by apply Hnew, Hd1.
    + exists new. split; [done|]. split; [done|].
      eapply Forall_impl; [exact Hall|]. intros st (l & Hl & Hnew & Hl').
      exists l. split; [done|]. split; [|done]. intros Hold. by apply Hnew, Hd1.
Qed.

(** X9: the statements [Eval] returns each have a map object of their
    own for parameters: no two statements share one, and none is an
    object that existed before the call. *)
Theorem Eval_parameters_are_new (s : @Script G) ctx (w : @World G) uow err w' :
  Eval s ctx w = (Ret (uow, err), w') ->
  NoDup (map Params (Statements uow)) /\
  Forall (fun st => exists l, Params st = Some l /\ (l ∉ dom (maps w)) /\ l ∈ dom (maps w'))
         (Statements uow).
Proof.
  unfold Eval. intros H. destruct (eval_loop_params _ _ _ _ _ _ _ H) as (new & Hst & Hnd & Hall).
  simpl in Hst. by rewrite Hst.
Qed.

(** X10: a Set command that succeeds is seen by a Query command that
    follows it in the same evaluation: the statement's parameters are the
    scope as it was, with the variable bound to the value. *)
Theorem Set_then_Query_sees_binding name e query ctx uow (w : @World G) v rs l :
  ctx_Vars ctx = Some l ->
  expr_Eval e ctx (read_map (maps w) (ctx_Vars ctx)) (rands w) = (inl v, rs) ->
  exists params w',
    eval_loop [SetCommand name e; QueryCommand query] ctx uow w =
      (Ret (append_statement uow {| Query := query; Params := Some params |}, None), w') /\
    read_map (maps w') (Some params) = <[name := v]> (read_map (maps w) (Some l)) /\
    read_map (maps w') (Some params) !! name = Some v.
Proof.
  intros Hl He. cbn [eval_loop Execute]. unfold mbind, M_bind.
  rewrite (SetCommand_Execute_eq _ _ _ _ _ _ _ He), Hl.
  rewrite QueryCommand_Execute_eq. simpl.
  eexists _, _. split; [reflexivity|]. simpl.
  rewrite lookup_insert_eq. simpl. rewrite Hl. simpl. rewrite lookup_insert_eq. simpl.
  split; [done|]. apply lookup_insert_eq.
Qed.

(** X11: a Set command whose expression yields a value binds the
    variable to it in the scope and leaves every other variable of the
    scope, and the unit of work, as they were. *)
Theorem SetCommand_binds name e ctx uow (w : @World G) v rs l (k : string) :
  ctx_Vars ctx = Some l ->
  expr_Eval e ctx (read_map (maps w) (ctx_Vars ctx)) (rands w) = (inl v, rs) ->
  k <> name ->
  (SetCommand_Execute name e ctx uow w).1 = Ret (uow, None) /\
  read_map (maps (SetCommand_Execute name e ctx uow w).2) (Some l) !! name = Some v /\
  read_map (maps (SetCommand_Execute name e ctx uow w).2) (Some l) !! k
    = read_map (maps w) (Some l) !! k.
Proof.
  intros Hl He Hk. rewrite (SetCommand_Execute_eq _ _ _ _ _ _ _ He), Hl. simpl.
  rewrite lookup_insert_eq. simpl. split; [done|]. split; [apply lookup_insert_eq|].
  by apply lookup_insert_ne.
Qed.

(** X12: in a context whose scope is the nil map, a Query command
    records a statement with empty parameters, and a Set command whose
    expression yields a value panics on the assignment, after the
    expression was evaluated. *)
Theorem nil_scope_commands name e query ctx uow (w : @World G) v rs :
  ctx_Vars ctx = None ->
  expr_Eval e ctx ∅ (rands w) = (inl v, rs) ->
  SetCommand_Execute name e ctx uow w =
    (Panic "assignment to entry in nil map", with_rands w rs) /\
  exists params w1,
    QueryCommand_Execute query ctx uow w =
      (Ret (append_statement uow {| Query := query; Params := Some params |}, None), w1) /\
    read_map (maps w1) (Some params) = ∅.
Proof.
  intros Hnil He. split.
  - rewrite (SetCommand_Execute_eq name e ctx uow w (inl v) rs); [by rewrite Hnil|].
    by rewrite Hnil.
  - rewrite QueryCommand_Execute_eq. eexists _, _. split; [reflexivity|].
    simpl. rewrite lookup_insert_eq. by rewrite Hnil.
Qed.

(** A run of Query commands only, from a valid scope: every command
    returns nil, each adds one statement whose parameters are a new map
    object holding the contents of the scope, and nothing else changes. *)
Lemma eval_loop_queries cmds ctx : forall uow (w : @World G),
  forallb is_query cmds = true ->
  valid_ref (maps w) (ctx_Vars ctx) ->
  exists uow' w' new,
    eval_loop cmds ctx uow w = (Ret (uow', None), w') /\
    uow_Readonly uow' = uow_Readonly uow /\
    Statements uow' = Statements uow ++ new /\
    length new = length cmds /\
    Forall (fun st => exists l, Params st = Some l /\ (l ∉ dom (maps w)) /\
                      maps w' !! l = Some (read_map (maps w) (ctx_Vars ctx))) new /\
    (forall l, l ∈ dom (maps w) -> maps w' !! l = maps w !! l) /\
    rands w' = rands w /\ slept w' = slept w.
Proof.
  induction cmds as [|cmd rest IH]; intros uow w Hq Hvalid.
  { exists uow, w, []. rewrite (right_id_L [] (++)). by repeat split. }
  destruct cmd as [query| |]; try discriminate. simpl in Hq.
  pose proof (is_fresh (dom (maps w))) as Hfresh.
  set (f := fresh (dom (maps w))) in *.
  set (c := read_map (maps w) (ctx_Vars ctx)).
  set (w1 := with_maps w (<[f := c]> (maps w))).
  set (uow1 := append_statement uow {| Query := query; Params := Some f |}).
  assert (Hold : forall l, l ∈ dom (maps w) -> maps w1 !! l = maps w !! l).
  { intros l Hl. simpl. apply lookup_insert_ne. by intros <-. }
  assert (Hvalid1 : valid_ref (maps w1) (ctx_Vars ctx)).
  { destruct (ctx_Vars ctx) as [l0|]; [|done]. simpl in *. rewrite dom_insert_L.
    apply elem_of_union_r, Hvalid. }
  assert (Hc1 : read_map (maps w1) (ctx_Vars ctx) = c).
  { apply read_map_frame; done. }
  destruct (IH uow1 w1 Hq Hvalid1)
    as (uow' & w' & new & Hrun & Hro & Hst & Hlen & Hall & Hframe & Hr & Hs).
  exists uow', w', ({| Query := query; Params := Some f |} :: new).
  split.
  { cbn [eval_loop Execute]. unfold mbind, M_bind. rewrite QueryCommand_Execute_eq.
    exact Hrun. }
  split; [done|]. split; [rewrite Hst; simpl; by rewrite <- app_assoc|].
  split; [simpl; by rewrite Hlen|].
  assert (Hf1 : f ∈ dom (maps w1)).
  { simpl. rewrite dom_insert_L. apply elem_of_union_l. by apply elem_of_singleton. }
  split; [|split; [|done]].
  - constructor.
    + exists f. split; [done|]. split; [done|]. rewrite (Hframe f Hf1). simpl.
      apply lookup_insert_eq.
    + eapply Forall_impl; [exact Hall|]. intros st (l & Hl & Hnew & Hcont).
      exists l. split; [done|]. split.
      * intros Hin. apply Hnew. simpl. rewrite dom_insert_L. by apply elem_of_union_r.
      * by rewrite Hcont, Hc1.
  - intros l Hl. rewrite Hframe; [by apply Hold|].
    simpl. rewrite dom_insert_L. by apply elem_of_union_r.
Qed.

(** X13: a script of Query commands only, evaluated in a valid scope,
    never fails: [Eval] returns one statement for each command, in order,
    every one with the contents of the scope for parameters; the scope
    and every other map object stay as they were, no generator is
    touched and no sleep is recorded. *)
Theorem Eval_of_queries_succeeds (s : @Script G) ctx (w : @World G) :
  forallb is_query (Commands s) = true ->
  valid_ref (maps w) (ctx_Vars ctx) ->
  exists uow w',
    Eval s ctx w = (Ret (uow, None), w') /\
    uow_Readonly uow = Readonly s /\
    length (Statements uow) = length (Commands s) /\
    map Query (Statements uow) = queries_of (Commands s) /\
    Forall (fun st => read_map (maps w') (Params st) = read_map (maps w) (ctx_Vars ctx))
           (Statements uow) /\
    read_map (maps w') (ctx_Vars ctx) = read_map (maps w) (ctx_Vars ctx) /\
    rands w' = rands w /\ slept w' = slept w.
Proof.
  intros Hq Hvalid. unfold Eval.
  destruct (eval_loop_queries (Commands s) ctx
              {| uow_Readonly := Readonly s; Statements := [] |} w Hq Hvalid)
    as (uow & w' & new & Hrun & Hro & Hst & Hlen & Hall & Hframe & Hr & Hs).
  simpl in Hst, Hro. exists uow, w'. split; [done|]. split; [done|].
  split; [by rewrite Hst|]. split.
  { pose proof (eval_loop_shape (Commands s) ctx
                  {| uow_Readonly := Readonly s; Statements := [] |} w) as Hshape.
    rewrite Hrun in Hshape. simpl in Hshape. destruct Hshape as (_ & qs & Hqs & ->).
    done. }
  split.
  { rewrite Hst. eapply Forall_impl; [exact Hall|]. intros st (l & -> & _ & Hcont).
    simpl. by rewrite Hcont. }
  split; [by apply read_map_frame|done].
Qed.

(** X14: a Sleep command whose duration evaluates to the integer [n],
    with [n * Unit] within [int64], returns nil and sleeps once, for
    [n * Unit]; the unit of work and the map objects stay as they were. *)
Theorem SleepCommand_sleeps_count_times_unit d unit ctx uow (w : @World G) n rs :
  expr_Eval d ctx (read_map (maps w) (ctx_Vars ctx)) (rands w) = (inl (VInt64 n), rs) ->
  MinInt <= n * unit <= MaxInt ->
  SleepCommand_Execute d unit ctx uow w =
    (Ret (uow, None), with_slept (with_rands w rs) (slept w ++ [n * unit])) /\
  maps (SleepCommand_Execute d unit ctx uow w).2 = maps w.
Proof.
  intros He Hrange. rewrite (SleepCommand_Execute_eq _ _ _ _ _ _ _ He).
  unfold int_mul. by rewrite to_int_small.
Qed.

(** ** ClientWorkload.Next and Workload.NewClient *)

Lemma Choose_lone (s : @Scripts G) r (w : @World G) :
  length (Scripts_ s) = 1%nat ->
  exists script, Scripts_ s = [script] /\ Choose s r w = (Ret script, w).
Proof.
  intros Hone. unfold Choose, len. rewrite Hone. simpl.
  destruct (Scripts_ s) as [|script [|other rest]]; try discriminate.
  by exists script.
Qed.

Lemma Choose_panics_in_Intn (s : @Scripts G) (r : loc) st (w : @World G) :
  Intn_contract G ->
  len (Scripts_ s) <> 1 ->
  TotalWeight s <= 0 ->
  rands w !! r = Some st ->
  exists msg, Intn G (TotalWeight s) st = Panic msg /\
              Choose s (Some r) w = (Panic msg, w).
Proof.
  intros HG Hlen HT Hr. destruct (HG (TotalWeight s) st) as [_ Hneg].
  destruct (Hneg HT) as [msg Hmsg]. exists msg. split; [done|].
  unfold Choose. destruct (Z.eqb_spec (len (Scripts_ s)) 1) as [|_]; [done|].
  unfold mbind, M_bind, on_rand. by rewrite Hr, Hmsg.
Qed.

(** X15: the statements [Next] returns each have a map object of their
    own for parameters: no two share one, none is the client's variables
    or the scope of the evaluation, and none existed before the call. *)
Theorem Next_parameters_are_new (c : @ClientWorkload G) (w : @World G) uow err w' :
  valid_ref (maps w) (cw_Variables c) ->
  Next c w = (Ret (uow, err), w') ->
  NoDup (map Params (Statements uow)) /\
  Forall (fun st => Params st <> cw_Variables c /\
                    Params st <> Some (fresh (dom (maps w))) /\
                    exists l, Params st = Some l /\ (l ∉ dom (maps w)) /\ l ∈ dom (maps w'))
         (Statements uow).
Proof.
  intros Hvalid. rewrite Next_unfold. unfold mbind, M_bind.
  set (scope := fresh (dom (maps w))).
  set (w1 := with_maps w (<[scope := read_map (maps w) (cw_Variables c)]> (maps w))).
  pose proof (Choose_maps (cw_Scripts c) (cw_Rand c) w1) as Hc.
  destruct (Choose (cw_Scripts c) (cw_Rand c) w1) as [[script|msg|] w2]; try done.
  simpl in Hc. unfold Eval. intros Hrun.
  destruct (eval_loop_params _ _ _ _ _ _ _ Hrun) as (new & Hst & Hnd & Hall).
  simpl in Hst. rewrite Hst. split; [done|].
  eapply Forall_impl; [exact Hall|]. intros st (l & Hl & Hnew & Hin).
  rewrite Hc in Hnew. simpl in Hnew. rewrite dom_insert_L in Hnew.
  assert (Hl1 : l <> scope).
  { intros ->. apply Hnew. apply elem_of_union_l. by apply elem_of_singleton. }
  assert (Hl2 : l ∉ dom (maps w)).
  { intros Hold. apply Hnew. by apply elem_of_union_r. }
  split; [|split].
  - rewrite Hl. intros Heq. rewrite <- Heq in Hvalid. simpl in Hvalid. done.
  - rewrite Hl. congruence.
  - by exists l.
Qed.

(** X16: on a client with any number of scripts but one and a total
    weight of zero or less, [Next] panics in the draw: it has made the
    scope, a new map object, and changed nothing else. *)
Theorem Next_without_weight_panics (c : @ClientWorkload G) (r : loc) st (w : @World G) :
  Intn_contract G ->
  len (Scripts_ (cw_Scripts c)) <> 1 ->
  TotalWeight (cw_Scripts c) <= 0 ->
  cw_Rand c = Some r ->
  rands w !! r = Some st ->
  exists msg,
    Next c w =
    (Panic msg,
     with_maps w (<[fresh (dom (maps w)) := read_map (maps w) (cw_Variables c)]> (maps w))).
Proof.
  intros HG Hlen HT Hr Hst. rewrite Next_unfold, Hr. unfold mbind, M_bind.
  set (w1 := with_maps w _).
  destruct (Choose_panics_in_Intn (cw_Scripts c) r st w1 HG Hlen HT) as (msg & _ & HC);
    [done|].
  exists msg. by rewrite HC.
Qed.

(** X17: a client with exactly one script, of Query commands only, needs
    no randomness: [Next] returns nil and one statement for each command,
    with the client's variables for parameters, and touches no generator,
    whatever the generator and the client's reference to it. *)
Theorem Next_of_one_reader_needs_no_randomness (c : @ClientWorkload G) (w : @World G) :
  length (Scripts_ (cw_Scripts c)) = 1%nat ->
  Forall (fun s => forallb is_query (Commands s) = true) (Scripts_ (cw_Scripts c)) ->
  exists script uow w',
    Scripts_ (cw_Scripts c) = [script] /\
    Next c w = (Ret (uow, None), w') /\
    uow_Readonly uow = Readonly script /\
    map Query (Statements uow) = queries_of (Commands script) /\
    Forall (fun st => read_map (maps w') (Params st) = read_map (maps w) (cw_Variables c))
           (Statements uow) /\
    rands w' = rands w /\ slept w' = slept w.
Proof.
  intros Hone Hq. rewrite Next_unfold. unfold mbind, M_bind.
  set (scope := fresh (dom (maps w))).
  set (w1 := with_maps w (<[scope := read_map (maps w) (cw_Variables c)]> (maps w))).
  destruct (Choose_lone (cw_Scripts c) (cw_Rand c) w1 Hone) as (script & Hs & HC).
  rewrite HC. rewrite Hs in Hq. apply Forall_cons in Hq as [Hq _].
  set (ctx := {| ctx_Stderr := cw_Stderr c; ctx_Vars := Some scope; ctx_Rand := cw_Rand c |}).
  assert (Hvalid : valid_ref (maps w1) (ctx_Vars ctx)).
  { simpl. rewrite dom_insert_L. apply elem_of_union_l. by apply elem_of_singleton. }
  assert (Hscope : read_map (maps w1) (ctx_Vars ctx) = read_map (maps w) (cw_Variables c)).
  { simpl. by rewrite lookup_insert_eq. }
  unfold Eval.
  destruct (eval_loop_queries (Commands script) ctx
              {| uow_Readonly := Readonly script; Statements := [] |} w1 Hq Hvalid)
    as (uow & w' & new & Hrun & Hro & Hst & Hlen & Hall & Hframe & Hr & Hsl).
  simpl in Hst, Hro. exists script, uow, w'. split; [done|]. split; [done|].
  split; [done|]. split.
  { pose proof (eval_loop_shape (Commands script) ctx
                  {| uow_Readonly := Readonly script; Statements := [] |} w1) as Hshape.
    rewrite Hrun in Hshape. simpl in Hshape. destruct Hshape as (_ & qs & Hqs & ->).
    done. }
  split; [|done].
  rewrite Hst. eapply Forall_impl; [exact Hall|]. intros st (l & -> & _ & Hcont).
  rewrite <- Hscope. simpl. by rewrite Hcont.
Qed.

(** What a call of [NewClient] that returns has done. *)
Lemma NewClient_inv (s : @Workload G) (w : @World G) c w' :
  NewClient s w = (Ret c, w') ->
  exists r0 st seed st',
    wl_Rand s = Some r0 /\
    rands w !! r0 = Some st /\
    Int63 G st = Ret (seed, st') /\
    c = {| cw_Readonly := false;
           cw_Variables := wl_Variables s;
           cw_Scripts := wl_Scripts s;
           cw_Rand := Some (fresh (dom (<[r0 := st']> (rands w))));
           cw_Stderr := os_Stderr |} /\
    w' = with_rands w (<[fresh (dom (<[r0 := st']> (rands w))) := NewSource G seed]>
                         (<[r0 := st']> (rands w))).
Proof.
  unfold NewClient, mbind, M_bind, on_rand, rand_New, mret, M_ret.
  destruct (wl_Rand s) as [r0|] eqn:Hr0; [|done].
  destruct (rands w !! r0) as [st|] eqn:Hst; [|done].
  destruct (Int63 G st) as [[seed st']| |] eqn:Hseed; [|done..].
  intros [= <- <-]. by exists r0, st, seed, st'.
Qed.

(** X18: a call of [NewClient] that returns has drawn one [Int63] from
    the Workload's generator, which moves on by that draw, and has made
    one new generator object for the client, seeded with the number
    drawn; it writes to [os.Stderr], and its readonly flag is unset. *)
Theorem NewClient_seeds_generator (s : @Workload G) (w : @World G) c w' :
  NewClient s w = (Ret c, w') ->
  exists r0 st seed st' r,
    wl_Rand s = Some r0 /\
    rands w !! r0 = Some st /\
    Int63 G st = Ret (seed, st') /\
    cw_Rand c = Some r /\
    r <> r0 /\ (r ∉ dom (rands w)) /\
    rands w' = <[r := NewSource G seed]> (<[r0 := st']> (rands w)) /\
    rands w' !! r = Some (NewSource G seed) /\
    rands w' !! r0 = Some st' /\
    slept w' = slept w /\
    cw_Stderr c = os_Stderr /\
    cw_Readonly c = false.
Proof.
  intros H. destruct (NewClient_inv _ _ _ _ H) as (r0 & st & seed & st' & Hr0 & Hst & Hseed & -> & ->).
  pose proof (is_fresh (dom (<[r0 := st']> (rands w)))) as Hf.
  set (r := fresh (dom (<[r0 := st']> (rands w)))) in *.
  rewrite dom_insert_L in Hf.
  assert (Hne : r <> r0).
  { intros Heq. apply Hf. rewrite Heq. apply elem_of_union_l. by apply elem_of_singleton. }
  exists r0, st, seed, st', r. simpl.
  repeat split; try done.
  - intros Hin. apply Hf. by apply elem_of_union_r.
  - apply lookup_insert_eq.
  - rewrite lookup_insert_ne by done. apply lookup_insert_eq.
Qed.

(** X19: two clients made one after the other from one Workload have
    generator objects of their own, both live after the second call, and
    hold the same variables mapping and the same scripts. *)
Theorem NewClient_twice_distinct_generators (s : @Workload G) (w : @World G) c1 w1 c2 w2 :
  NewClient s w = (Ret c1, w1) ->
  NewClient s w1 = (Ret c2, w2) ->
  cw_Rand c1 <> cw_Rand c2 /\
  (exists r1 r2, cw_Rand c1 = Some r1 /\ cw_Rand c2 = Some r2 /\
                 r1 ∈ dom (rands w2) /\ r2 ∈ dom (rands w2)) /\
  cw_Variables c1 = cw_Variables c2 /\
  cw_Scripts c1 = cw_Scripts c2.
Proof.
  intros H1 H2.
  destruct (NewClient_inv _ _ _ _ H1) as (r0 & st & seed & st' & Hr0 & Hst & Hseed & -> & ->).
  destruct (NewClient_inv _ _ _ _ H2) as (r0' & st2 & seed2 & st2' & Hr0' & Hst2 & Hseed2 & -> & ->).
  simpl in *.
  set (rs1 := <[fresh (dom (<[r0 := st']> (rands w))) := NewSource G seed]>
                (<[r0 := st']> (rands w))) in *.
  set (r1 := fresh (dom (<[r0 := st']> (rands w)))) in *.
  pose proof (is_fresh (dom (<[r0' := st2']> rs1))) as Hf2.
  set (r2 := fresh (dom (<[r0' := st2']> rs1))) in *.
  assert (Hr1 : r1 ∈ dom (<[r0' := st2']> rs1)).
  { rewrite dom_insert_L. apply elem_of_union_r. unfold rs1. rewrite dom_insert_L.
    apply elem_of_union_l. by apply elem_of_singleton. }
  split; [|split; [|done]].
  - intros [= Heq]. apply Hf2. by rewrite <- Heq.
  - exists r1, r2. split; [done|]. split; [done|]. split.
    + rewrite dom_insert_L. by apply elem_of_union_r.
    + rewrite dom_insert_L. apply elem_of_union_l. by apply elem_of_singleton.
Qed.

(** X20: however many calls of [Next] are made on a client that
    [NewClient] returned, the Workload's variables mapping, which the
    client shares, reads as it did before the client was made. *)
Theorem Workload_variables_survive_clients (s : @Workload G) (w : @World G) c w1 (n : nat) :
  valid_ref (maps w) (wl_Variables s) ->
  NewClient s w = (Ret c, w1) ->
  read_map (maps (drive c n w1)) (wl_Variables s) = read_map (maps w) (wl_Variables s).
Proof.
  intros Hvalid H.
  destruct (NewClient_inv _ _ _ _ H) as (r0 & st & seed & st' & _ & _ & _ & -> & ->).
  destruct (drive_frame
              {| cw_Readonly := false; cw_Variables := wl_Variables s;
                 cw_Scripts := wl_Scripts s;
                 cw_Rand := Some (fresh (dom (<[r0 := st']> (rands w))));
                 cw_Stderr := os_Stderr |} n
              (with_rands w (<[fresh (dom (<[r0 := st']> (rands w))) := NewSource G seed]>
                               (<[r0 := st']> (rands w))))) as [_ Hl].
  by apply read_map_frame.
Qed.

End MoreProperties.

(** * The further properties on concrete inputs *)

Lemma demo_world_has_1 draws : 1%positive ∈ dom (maps (demo_world draws)).
Proof. apply elem_of_dom. by eexists. Defined.

Lemma NewScripts_table_sorted_witness :
  (0 <= 2)%nat /\ 0 <= 2 /\ 2 <= 8 /\ 8 <= TotalWeight (NewScripts demo_scripts).
Proof.
  split; [lia|].
  destruct (NewScripts_table_sorted demo_scripts 0 2 2 8) as (H1 & H2 & H3 & _).
  - exact demo_weights_nonneg.
  - by vm_compute.
  - lia.
  - reflexivity.
  - reflexivity.
  - by repeat split.
Defined.

Lemma Choose_without_weight_panics_witness :
  TotalWeight (NewScripts idle_scripts) <= 0 /\
  exists msg, Choose (NewScripts idle_scripts) (Some 1%positive) (demo_world [5])
              = (Panic msg, demo_world [5]).
Proof.
  split; [by vm_compute|].
  destruct (Choose_without_weight_panics (NewScripts idle_scripts) 1%positive [5]
              (demo_world [5])) as (msg & _ & HC).
  - exact Intn_contract_tape.
  - by vm_compute.
  - by vm_compute.
  - reflexivity.
  - by exists msg.
Defined.

Lemma Choose_skips_weightless_witness :
  Choose (NewScripts demo_scripts) (Some 1%positive) (demo_world [4])
    = (Ret demo_B, demo_world []) /\
  0 < Weight demo_B.
Proof.
  split; [reflexivity|].
  apply (Choose_skips_weightless demo_scripts 1%positive [4] (demo_world [4])
           demo_B (demo_world [])).
  - exact Intn_contract_tape.
  - exact demo_weights_nonneg.
  - by vm_compute.
  - by vm_compute.
  - by vm_compute.
  - by vm_compute.
  - reflexivity.
  - reflexivity.
Defined.

Lemma Choose_touches_one_generator_witness :
  maps (Choose (NewScripts demo_scripts) (Some 1%positive) (demo_world [4])).2
  = maps (demo_world [4]).
Proof.
  refine (proj1 (Choose_touches_one_generator (NewScripts demo_scripts) (Some 1%positive)
                   (demo_world [4]) 2%positive _)).
  discriminate.
Defined.

Lemma Choose_point_above_table_witness :
  Forall (fun v => v < 9) (WeightedLookup short_table) /\
  choose_at short_table 9 = Panic "index out of range".
Proof.
  assert (Hall : Forall (fun v => v < 9) (WeightedLookup short_table)).
  { repeat constructor; lia. }
  split; [exact Hall|].
  refine (proj2 (Choose_point_above_table short_table 9 _ _ Hall)).
  - reflexivity.
  - by vm_compute.
Defined.

Lemma Eval_changes_only_the_scope_witness :
  maps (Eval demo_reader nil_ctx (demo_world [])).2 !! 1%positive
  = maps (demo_world []) !! 1%positive.
Proof.
  refine (proj2 (Eval_changes_only_the_scope demo_reader nil_ctx (demo_world []) 1%positive
                   (demo_world_has_1 []) _)).
  discriminate.
Defined.

Lemma Eval_parameters_are_new_witness :
  exists uow,
    (Eval demo_failing demo_ctx (demo_world [])).1
      = Ret (uow, Some (EvalError "undefined variable")) /\
    NoDup (map Params (Statements uow)).
Proof.
  edestruct (Eval_parameters_are_new demo_failing demo_ctx (demo_world [])) as (Hnd & _);
    [reflexivity|].
  eexists. split; [reflexivity|exact Hnd].
Defined.

Lemma Set_then_Query_sees_binding_witness :
  exists params w',
    eval_loop [SetCommand "x" (expr_const (VInt64 5)); QueryCommand "RETURN $x"]
              demo_ctx demo_uow (demo_world []) =
      (Ret (append_statement demo_uow {| Query := "RETURN $x"; Params := Some params |}, None),
       w') /\
    read_map (maps w') (Some params) !! "x" = Some (VInt64 5).
Proof.
  destruct (Set_then_Query_sees_binding "x" (expr_const (VInt64 5)) "RETURN $x"
              demo_ctx demo_uow (demo_world []) (VInt64 5) (rands (demo_world []))
              1%positive eq_refl eq_refl) as (params & w' & H1 & _ & H3).
  by exists params, w'.
Defined.

Lemma SetCommand_binds_witness :
  read_map (maps (SetCommand_Execute "y" (expr_const (VInt64 5)) demo_ctx demo_uow
                    (demo_world [])).2) (Some 1%positive) !! "y" = Some (VInt64 5) /\
  read_map (maps (SetCommand_Execute "y" (expr_const (VInt64 5)) demo_ctx demo_uow
                    (demo_world [])).2) (Some 1%positive) !! "x"
  = read_map (maps (demo_world [])) (Some 1%positive) !! "x".
Proof.
  refine (proj2 (SetCommand_binds "y" (expr_const (VInt64 5)) demo_ctx demo_uow
                   (demo_world []) (VInt64 5) (rands (demo_world [])) 1%positive "x"
                   eq_refl eq_refl _)).
  discriminate.
Defined.

Lemma nil_scope_commands_witness :
  SetCommand_Execute "y" (expr_const (VInt64 5)) nil_ctx demo_uow (demo_world [])
  = (Panic "assignment to entry in nil map", demo_world []).
Proof.
  exact (proj1 (nil_scope_commands "y" (expr_const (VInt64 5)) "RETURN 1" nil_ctx demo_uow
                  (demo_world []) (VInt64 5) (rands (demo_world [])) eq_refl eq_refl)).
Defined.

Lemma Eval_of_queries_succeeds_witness :
  exists uow w',
    Eval demo_reader demo_ctx (demo_world []) = (Ret (uow, None), w') /\
    length (Statements uow) = 2%nat.
Proof.
  destruct (Eval_of_queries_succeeds demo_reader demo_ctx (demo_world []) eq_refl
              (demo_world_has_1 [])) as (uow & w' & H1 & _ & H3 & _).
  by exists uow, w'.
Defined.

Lemma SleepCommand_sleeps_count_times_unit_witness :
  SleepCommand_Execute (expr_const (VInt64 10)) 1000000 demo_ctx demo_uow (demo_world [])
  = (Ret (demo_uow, None), with_slept (demo_world []) [10 * 1000000]).
Proof.
  refine (proj1 (SleepCommand_sleeps_count_times_unit (expr_const (VInt64 10)) 1000000
                   demo_ctx demo_uow (demo_world []) 10 (rands (demo_world [])) eq_refl _)).
  split; by vm_compute.
Defined.

Lemma Next_parameters_are_new_witness :
  exists uow,
    (Next demo_client (demo_world [])).1 = Ret (uow, None) /\
    NoDup (map Params (Statements uow)) /\
    Forall (fun st => Params st <> cw_Variables demo_client) (Statements uow).
Proof.
  edestruct (Next_parameters_are_new demo_client (demo_world [])) as (Hnd & Hall);
    [exact (demo_world_has_1 [])|reflexivity|].
  eexists. split; [reflexivity|]. split; [exact Hnd|].
  eapply Forall_impl; [exact Hall|]. by intros st (H & _).
Defined.

Lemma Next_without_weight_panics_witness :
  exists msg, (Next idle_client (demo_world [5])).1 = Panic msg.
Proof.
  destruct (Next_without_weight_panics idle_client 1%positive [5] (demo_world [5]))
    as (msg & HN).
  - exact Intn_contract_tape.
  - by vm_compute.
  - by vm_compute.
  - reflexivity.
  - reflexivity.
  - exists msg. exact (f_equal fst HN).
Defined.

Lemma Next_of_one_reader_needs_no_randomness_witness :
  rands (Next reader_client (demo_world [7])).2 = rands (demo_world [7]).
Proof.
  destruct (Next_of_one_reader_needs_no_randomness reader_client (demo_world [7]) eq_refl)
    as (script & uow & w' & _ & HN & _ & _ & _ & Hr & _).
  - repeat constructor.
  - exact (eq_trans (f_equal (fun p => rands p.2) HN) Hr).
Defined.

Lemma NewClient_seeds_generator_witness :
  exists c w' r seed,
    NewClient demo_workload (demo_world [42]) = (Ret c, w') /\
    cw_Rand c = Some r /\
    rands w' !! r = Some (NewSource tape seed).
Proof.
  edestruct (NewClient_seeds_generator demo_workload (demo_world [42]))
    as (r0 & st & seed & st' & r & _ & _ & _ & Hr & _ & _ & _ & Hnew & _);
    [reflexivity|].
  eexists _, _, r, seed. split; [reflexivity|]. split; [exact Hr|exact Hnew].
Defined.

Lemma NewClient_twice_distinct_generators_witness :
  exists c1 w1 c2 w2,
    NewClient demo_workload (demo_world [42; 43]) = (Ret c1, w1) /\
    NewClient demo_workload w1 = (Ret c2, w2) /\
    cw_Rand c1 <> cw_Rand c2.
Proof.
  eexists _, _, _, _. split; [reflexivity|]. split; [reflexivity|].
  exact (proj1 (NewClient_twice_distinct_generators demo_workload (demo_world [42; 43])
                  _ _ _ _ eq_refl eq_refl)).
Defined.

Lemma Workload_variables_survive_clients_witness :
  exists c w1,
    NewClient demo_workload (demo_world [42]) = (Ret c, w1) /\
    read_map (maps (drive c 2 w1)) (wl_Variables demo_workload)
    = read_map (maps (demo_world [42])) (wl_Variables demo_workload).
Proof.
  eexists _, _. split; [reflexivity|].
  exact (Workload_variables_survive_clients demo_workload (demo_world [42]) _ _ 2
           (demo_world_has_1 [42]) eq_refl).
Defined.
